(** * Merkle tree over opaque content items (merkle.go)

    A shallow embedding of [src/merkle.go]: the node arena with its
    parent back-links, the tree builder ([NewTree], [buildWithContent],
    [buildIntermediate]) and the proof extractor ([GetMerklePath]),
    followed by the properties of the builder and of the extracted paths.

    Conventions of the embedding.
    - A Go [[]byte] is a [list Byte.byte]; slices are taken by value.
    - A [*Node] is an index into an arena ([list Node]); [nil] is [None].
      Allocation appends to the arena, so node identity is the index.
    - A Go result pair [(v, err)] is kept as a pair whose second
      component is an [option error].
    - A function that may fail to return (unbounded recursion, a nil
      dereference) yields an [option]; [None] is "no normal return".
      The recursion of [buildIntermediate] and the upward loop of
      [GetMerklePath] take a fuel; the callers pass the length of the
      leaf list and the size of the arena.
    - The items of one list have one type [T] that implements
      [Content]; the type assertion in [TestContent.Equals] never
      fails for such a list. *)

From Stdlib Require Import ZArith List Strings.Byte String.
From stdpp Require Import base tactics option list sets.
Import ListNotations.
Local Open Scope Z_scope.

(** ** crypto/md5

    The digest behind [md5.New]: RFC 1321 on byte strings.  A value
    [h := md5.New()] followed by [h.Write(p)] and [h.Sum(nil)] returns
    [MD5.Sum p]; [Write] on an md5 digest never reports an error. *)
Module MD5.

Definition w32 (x : Z) : Z := x mod 2 ^ 32.

Definition rotl (x : Z) (s : Z) : Z :=
  w32 (Z.lor (Z.shiftl x s) (Z.shiftr x (32 - s))).

Definition lnot32 (x : Z) : Z := Z.lxor x 0xffffffff.

Definition K : list Z :=
  [ 0xd76aa478; 0xe8c7b756; 0x242070db; 0xc1bdceee;
    0xf57c0faf; 0x4787c62a; 0xa8304613; 0xfd469501;
    0x698098d8; 0x8b44f7af; 0xffff5bb1; 0x895cd7be;
    0x6b901122; 0xfd987193; 0xa679438e; 0x49b40821;
    0xf61e2562; 0xc040b340; 0x265e5a51; 0xe9b6c7aa;
    0xd62f105d; 0x02441453; 0xd8a1e681; 0xe7d3fbc8;
    0x21e1cde6; 0xc33707d6; 0xf4d50d87; 0x455a14ed;
    0xa9e3e905; 0xfcefa3f8; 0x676f02d9; 0x8d2a4c8a;
    0xfffa3942; 0x8771f681; 0x6d9d6122; 0xfde5380c;
    0xa4beea44; 0x4bdecfa9; 0xf6bb4b60; 0xbebfbc70;
    0x289b7ec6; 0xeaa127fa; 0xd4ef3085; 0x04881d05;
    0xd9d4d039; 0xe6db99e5; 0x1fa27cf8; 0xc4ac5665;
    0xf4292244; 0x432aff97; 0xab9423a7; 0xfc93a039;
    0x655b59c3; 0x8f0ccc92; 0xffeff47d; 0x85845dd1;
    0x6fa87e4f; 0xfe2ce6e0; 0xa3014314; 0x4e0811a1;
    0xf7537e82; 0xbd3af235; 0x2ad7d2bb; 0xeb86d391 ].

Definition shifts : list Z :=
  [ 7; 12; 17; 22; 7; 12; 17; 22; 7; 12; 17; 22; 7; 12; 17; 22;
    5; 9; 14; 20; 5; 9; 14; 20; 5; 9; 14; 20; 5; 9; 14; 20;
    4; 11; 16; 23; 4; 11; 16; 23; 4; 11; 16; 23; 4; 11; 16; 23;
    6; 10; 15; 21; 6; 10; 15; 21; 6; 10; 15; 21; 6; 10; 15; 21 ].

(** Little-endian bytes of a word and back. *)
Definition le_bytes (n : nat) (x : Z) : list Z :=
  List.map (fun i => Z.shiftr x (8 * Z.of_nat i) mod 256) (List.seq 0 n).

Fixpoint le_word (bs : list Z) : Z :=
  match bs with
  | [] => 0
  | b :: r => b + 256 * le_word r
  end.

(** The message followed by 0x80, zeros up to 56 mod 64, and the bit
    length on 64 bits. *)
Definition pad (msg : list Z) : list Z :=
  let len := Z.of_nat (List.length msg) in
  let zeros := Z.to_nat ((55 - len) mod 64) in
  msg ++ [0x80] ++ List.repeat 0 zeros ++ le_bytes 8 ((8 * len) mod 2 ^ 64).

Fixpoint words (n : nat) (bs : list Z) : list Z :=
  match n with
  | O => []
  | S n' => le_word (List.firstn 4 bs) :: words n' (List.skipn 4 bs)
  end.

Definition round (M : list Z) (st : Z * Z * Z * Z) (i : nat) : Z * Z * Z * Z :=
  let '(a, b, c, d) := st in
  let '(f, g) :=
    match (i / 16)%nat with
    | 0%nat => (Z.lor (Z.land b c) (Z.land (lnot32 b) d), i)
    | 1%nat => (Z.lor (Z.land d b) (Z.land (lnot32 d) c), ((5 * i + 1) mod 16)%nat)
    | 2%nat => (Z.lxor (Z.lxor b c) d, ((3 * i + 5) mod 16)%nat)
    | _ => (Z.lxor c (Z.lor b (lnot32 d)), ((7 * i) mod 16)%nat)
    end in
  let x := w32 (f + a + List.nth i K 0 + List.nth g M 0) in
  (d, w32 (b + rotl x (List.nth i shifts 0)), b, c).

Definition block (st : Z * Z * Z * Z) (bs : list Z) : Z * Z * Z * Z :=
  let M := words 16 bs in
  let '(a, b, c, d) := st in
  let '(a', b', c', d') := List.fold_left (round M) (List.seq 0 64) st in
  (w32 (a + a'), w32 (b + b'), w32 (c + c'), w32 (d + d')).

Fixpoint blocks (n : nat) (st : Z * Z * Z * Z) (bs : list Z) : Z * Z * Z * Z :=
  match n with
  | O => st
  | S n' => blocks n' (block st (List.firstn 64 bs)) (List.skipn 64 bs)
  end.

Definition init : Z * Z * Z * Z :=
  (0x67452301, 0xefcdab89, 0x98badcfe, 0x10325476).

Definition byte_of_Z (z : Z) : byte :=
  match Byte.of_N (Z.to_N (z mod 256)) with
  | Some b => b
  | None => x00
  end.

Definition Z_of_byte (b : byte) : Z := Z.of_N (Byte.to_N b).

Definition Sum (data : list byte) : list byte :=
  let p := pad (List.map Z_of_byte data) in
  let '(a, b, c, d) := blocks (List.length p / 64) init p in
  List.map byte_of_Z (le_bytes 4 a ++ le_bytes 4 b ++ le_bytes 4 c ++ le_bytes 4 d).


End MD5.

Local Close Scope Z_scope.

(** ** Data model (merkle.go, lines 12-39) *)

(** [[]byte] *)
Abbreviation bytes := (list byte) (only parsing).

(** [bytes.Equal] *)
Fixpoint bytes_Equal (a b : bytes) : bool :=
  match a, b with
  | [], [] => true
  | x :: a', y :: b' => Byte.eqb x y && bytes_Equal a' b'
  | _, _ => false
  end.

(** A Go [error] value, identified by its message; [errors.New]. *)
Inductive error : Type :=
  | errors_New (msg : string).

(** The [Content] interface.  Each method returns its Go result pair. *)
Class Content (T : Type) : Type := {
  CalculateHash : T -> bytes * option error;
  Equals : T -> T -> bool * option error
}.

(** A [hash.Hash] as handed out by a strategy [func() hash.Hash]:
    [Write p] is the error reported when [p] is written to a fresh
    value, and [Sum p] is what [Sum(nil)] returns after that write. *)
Record hash_Hash : Type := {
  Write : bytes -> option error;
  Sum : bytes -> bytes
}.

(** [md5.New] *)
Definition md5_New : hash_Hash :=
  {| Write := fun _ => None; Sum := MD5.Sum |}.

(** Node pointers are arena indices; tree pointers are handles. *)
Abbreviation ptr := nat (only parsing).

Section Model.

Context {T : Type} `{Content T}.

(** [Tree] holds the handle of the owning tree; no operation reads it. *)
Record Node : Type := mkNode {
  Tree : nat;
  Parent : option ptr;
  Left : option ptr;
  Right : option ptr;
  leaf : bool;
  dup : bool;
  Hash : bytes;
  C : option T
}.

Record MerkleTree : Type := mkTree {
  Root : option ptr;
  merkleRoot : bytes;
  Leafs : list ptr;
  hashStrategy : hash_Hash
}.

Abbreviation heap := (list Node) (only parsing).

(** The program state: the node arena and the number of tree objects
    allocated so far (the next tree handle). *)
Record store : Type := mkStore {
  nodes : heap;
  trees : nat
}.

(** [&Node{...}]: the new node lives at the end of the arena. *)
Definition alloc (n : Node) (h : heap) : ptr * heap :=
  (length h, h ++ [n]).

(** The node [nd] with its [Parent] field set to [par]. *)
Definition withParent (par : option ptr) (nd : Node) : Node :=
  mkNode (Tree nd) par (Left nd) (Right nd) (leaf nd) (dup nd) (Hash nd) (C nd).

(** [p.Parent = n] *)
Definition setParent (p n : ptr) (h : heap) : option heap :=
  match h !! p with
  | None => None
  | Some nd => Some (<[p := withParent (Some n) nd]> h)
  end.

(** ** Tree builder (merkle.go, lines 87-154) *)

(** One iteration of the loop of [buildIntermediate] (lines 131-148) on
    the pair [(nl[left], nl[right])], here [(l, r)]: [chash] is the left
    hash followed by the right hash, and the outcome is the new parent
    or the error of the strategy's [Write]. *)
Definition pairNodes (t : nat) (hs : hash_Hash) (l r : ptr) (h : heap)
  : option ((ptr + error) * heap) :=
  match h !! l, h !! r with
  | Some nl, Some nr =>
      let chash := Hash nl ++ Hash nr in
      match Write hs chash with
      | Some err => Some (inr err, h)
      | None =>
          let '(n, h1) :=
            alloc (mkNode t None (Some l) (Some r) false false
                          (Sum hs chash) None) h in
          match setParent l n h1 with
          | None => None
          | Some h2 =>
              match setParent r n h2 with
              | None => None
              | Some h3 => Some (inl n, h3)
              end
          end
      end
  | _, _ => None
  end.

(** How the loop of [buildIntermediate] ends: it ran to its end with
    the next level collected in [nodes], or it executed a [return]. *)
Inductive loop_exit : Type :=
  | Next (nodes : list ptr)
  | Return (n : option ptr) (err : option error).

Definition withPair (r : option ((ptr + error) * heap))
    (k : ptr -> heap -> option (loop_exit * heap)) : option (loop_exit * heap) :=
  match r with
  | None => None
  | Some (inr err, h') => Some (Return None (Some err), h')
  | Some (inl n, h') => k n h'
  end.

(** The loop [for i := 0; i < len(nl); i += 2] over the remaining
    elements [nl[i:]]; [len] is [len(nl)] of the whole level.  The last
    element of an odd level is paired with itself ([right = i]). *)
Fixpoint pairLoop (t : nat) (hs : hash_Hash) (len : nat)
    (nl nodes : list ptr) (h : heap) : option (loop_exit * heap) :=
  match nl with
  | [] => Some (Next nodes, h)
  | [l] =>
      withPair (pairNodes t hs l l h) (fun n h' =>
        if Nat.eqb len 2 then Some (Return (Some n) None, h')
        else Some (Next (nodes ++ [n]), h'))
  | l :: r :: rest =>
      withPair (pairNodes t hs l r h) (fun n h' =>
        if Nat.eqb len 2 then Some (Return (Some n) None, h')
        else pairLoop t hs len rest (nodes ++ [n]) h')
  end.

(** [buildIntermediate]: the recursion on the next level is bounded by
    [fuel]; running out of it is [None]. *)
Fixpoint buildIntermediate (fuel : nat) (nl : list ptr) (t : nat)
    (hs : hash_Hash) (h : heap) : option ((option ptr * option error) * heap) :=
  match fuel with
  | O => None
  | S fuel' =>
      match pairLoop t hs (length nl) nl [] h with
      | None => None
      | Some (Return n err, h') => Some ((n, err), h')
      | Some (Next nodes, h') => buildIntermediate fuel' nodes t hs h'
      end
  end.

(** The loop over [cs] of [buildWithContent] (lines 95-107). *)
Fixpoint leafLoop (cs : list T) (t : nat) (leafs : list ptr) (h : heap)
  : (list ptr + error) * heap :=
  match cs with
  | [] => (inl leafs, h)
  | c :: cs' =>
      let '(hash, err) := CalculateHash c in
      match err with
      | Some e => (inr e, h)
      | None =>
          let '(n, h1) :=
            alloc (mkNode t None None None true false hash (Some c)) h in
          leafLoop cs' t (leafs ++ [n]) h1
      end
  end.

(** The odd-count padding of [buildWithContent] (lines 108-117). *)
Definition padLeafs (t : nat) (leafs : list ptr) (h : heap)
  : option (list ptr * heap) :=
  if Nat.eqb (length leafs mod 2) 1 then
    match last leafs with
    | None => None
    | Some lp =>
        match h !! lp with
        | None => None
        | Some nd =>
            let '(duplicate, h1) :=
              alloc (mkNode t None None None true true (Hash nd) (C nd)) h in
            Some (leafs ++ [duplicate], h1)
        end
    end
  else Some (leafs, h).

Definition buildWithContent (cs : list T) (t : nat) (hs : hash_Hash) (h : heap)
  : option ((option ptr * list ptr * option error) * heap) :=
  if Nat.eqb (length cs) 0 then
    Some ((None, [],
           Some (errors_New "error: cannot construct tree with no content")), h)
  else
    match leafLoop cs t [] h with
    | (inr err, h1) => Some ((None, [], Some err), h1)
    | (inl leafs0, h1) =>
        match padLeafs t leafs0 h1 with
        | None => None
        | Some (leafs, h2) =>
            match buildIntermediate (length leafs) leafs t hs h2 with
            | None => None
            | Some ((_, Some err), h3) => Some ((None, [], Some err), h3)
            | Some ((root, None), h3) => Some ((root, leafs, None), h3)
            end
        end
    end.

(** [NewTree]: the tree object gets the next handle; its fields are set
    once the nodes are built.  [root.Hash] needs a root. *)
Definition NewTree (cs : list T) (st : store)
  : option ((option MerkleTree * option error) * store) :=
  let defaultHashStrategy := md5_New in
  let t := trees st in
  match buildWithContent cs t defaultHashStrategy (nodes st) with
  | None => None
  | Some ((_, _, Some err), h') => Some ((None, Some err), mkStore h' (S t))
  | Some ((None, _, None), _) => None
  | Some ((Some root, leafs, None), h') =>
      match h' !! root with
      | None => None
      | Some nroot =>
          Some ((Some (mkTree (Some root) (Hash nroot) leafs defaultHashStrategy),
                 None),
                mkStore h' (S t))
      end
  end.

(** [MerkleRoot] *)
Definition MerkleRoot (m : MerkleTree) : bytes := merkleRoot m.

(** ** Proof extractor (merkle.go, lines 58-85) *)

(** The loop [for currentParent != nil] (lines 70-80), bounded by
    [fuel]. *)
Fixpoint walk (fuel : nat) (h : heap) (current : ptr) (currentParent : option ptr)
    (merklePath : list bytes) (index : list Z) : option (list bytes * list Z) :=
  match currentParent with
  | None => Some (merklePath, index)
  | Some p =>
      match fuel with
      | O => None
      | S fuel' =>
          match h !! p, h !! current with
          | Some np, Some nc =>
              match Left np with
              | None => None
              | Some l =>
                  match h !! l with
                  | None => None
                  | Some nl =>
                      if bytes_Equal (Hash nl) (Hash nc) then
                        match Right np with
                        | None => None
                        | Some r =>
                            match h !! r with
                            | None => None
                            | Some nr =>
                                walk fuel' h p (Parent np)
                                     (merklePath ++ [Hash nr]) (index ++ [1%Z])
                            end
                        end
                      else
                        walk fuel' h p (Parent np)
                             (merklePath ++ [Hash nl]) (index ++ [0%Z])
                  end
              end
          | _, _ => None
          end
      end
  end.

(** The scan [for _, current := range m.Leafs] (lines 60-84).  A parent
    chain without a cycle is no longer than the arena, which bounds the
    walk. *)
Fixpoint scanLeafs (leafs : list ptr) (content : T) (h : heap)
  : option (list bytes * list Z * option error) :=
  match leafs with
  | [] => Some ([], [], None)
  | current :: rest =>
      match h !! current with
      | None => None
      | Some nc =>
          match C nc with
          | None => None
          | Some c =>
              let '(ok, err) := Equals c content in
              match err with
              | Some e => Some ([], [], Some e)
              | None =>
                  if ok then
                    match walk (length h) h current (Parent nc) [] [] with
                    | None => None
                    | Some (merklePath, index) => Some (merklePath, index, None)
                    end
                  else scanLeafs rest content h
              end
          end
      end
  end.

Definition GetMerklePath (m : MerkleTree) (content : T) (h : heap)
  : option (list bytes * list Z * option error) :=
  scanLeafs (Leafs m) content h.

End Model.

Arguments Node T : clear implicits.
Arguments store T : clear implicits.

Abbreviation heap T := (list (Node T)) (only parsing).

(** ** Recomputing the root from a path

    The verifier's side of a Merkle path, as the specification words it:
    at each step the sibling is concatenated on the right for marker 1
    and on the left for marker 0, and the result is hashed. *)
Fixpoint foldPath (digest : bytes -> bytes) (cur : bytes)
    (path : list bytes) (index : list Z) : bytes :=
  match path, index with
  | sib :: path', d :: index' =>
      foldPath digest
        (if Z.eqb d 1 then digest (cur ++ sib) else digest (sib ++ cur))
        path' index'
  | _, _ => cur
  end.

(** ** The demo content type (merkle.go, lines 177-194) *)

Definition bytes_of_string (s : string) : bytes := list_byte_of_string s.

Module Demo.

Record TestContent : Type := mkTestContent { x : string }.

#[global] Instance TestContent_Content : Content TestContent := {|
  CalculateHash t := (Sum md5_New (bytes_of_string (x t)), None);
  Equals t other := (String.eqb (x t) (x other), None)
|}.

(** The [list] built by [main]. *)
Definition main_list : list TestContent :=
  [ mkTestContent "Hello"; mkTestContent "World";
    mkTestContent "Hey"; mkTestContent "Gao" ].

(** The odd-count scenario of the specification. *)
Definition abc_list : list TestContent :=
  [ mkTestContent "A"; mkTestContent "B"; mkTestContent "C" ].

(** A list whose first internal level has odd length. *)
Definition six_list : list TestContent :=
  [ mkTestContent "Hello"; mkTestContent "World"; mkTestContent "Hey";
    mkTestContent "Gao"; mkTestContent "A"; mkTestContent "B" ].

Definition empty : store TestContent := mkStore [] 0.

End Demo.

(** ** Content items that are their own digest

    A second implementation of [Content]: an item is a byte string, its
    digest operation returns the string itself and its equality test
    compares the strings.  [copy] is a strategy whose digest is its
    input. *)
Module Raw.

#[global] Instance Raw_Content : Content (list byte) := {|
  CalculateHash b := (b, None);
  Equals b other := (bytes_Equal b other, None)
|}.

Definition a : list byte := bytes_of_string "a".
Definition b : list byte := bytes_of_string "b".

Definition empty : store (list byte) := mkStore [] 0.

Definition copy : hash_Hash := {| Write := fun _ => None; Sum := fun data => data |}.

(** A strategy whose [Write] always fails. *)
Definition write_failed : error := errors_New "write failed".

Definition broken : hash_Hash :=
  {| Write := fun _ => Some write_failed; Sum := fun data => data |}.

End Raw.

(** ** Content items whose digest can fail

    A third implementation of [Content]: an item may lack its data, and
    then its digest operation fails. *)
Module Faulty.

Definition no_data : error := errors_New "no data".

#[global] Instance Faulty_Content : Content (option string) := {|
  CalculateHash o :=
    match o with
    | Some s => (Sum md5_New (bytes_of_string s), None)
    | None => ([], Some no_data)
    end;
  Equals o other :=
    (match o, other with
     | Some s, Some s' => String.eqb s s'
     | None, None => true
     | _, _ => false
     end, None)
|}.

Definition empty : store (option string) := mkStore [] 0.

End Faulty.

(** ** The root as a function of the leaf digests

    What the builder computes, read off the digests alone: one level is
    reduced by hashing disjoint pairs (the last digest of an odd level
    with itself), and levels are reduced until a level of two digests
    yields the root. *)
Fixpoint pairHashes (digest : bytes -> bytes) (ds : list bytes) : list bytes :=
  match ds with
  | [] => []
  | [x] => [digest (x ++ x)]
  | x :: y :: rest => digest (x ++ y) :: pairHashes digest rest
  end.

Fixpoint rootHash (digest : bytes -> bytes) (fuel : nat) (ds : list bytes)
  : option bytes :=
  match fuel with
  | O => None
  | S fuel' =>
      match ds with
      | [x; y] => Some (digest (x ++ y))
      | _ => rootHash digest fuel' (pairHashes digest ds)
      end
  end.

(** The leaf digests after the odd-count padding. *)
Definition padHashes (ds : list bytes) : list bytes :=
  if Nat.eqb (length ds mod 2) 1 then
    match last ds with
    | Some d => ds ++ [d]
    | None => ds
    end
  else ds.


(** ** Invariants of the arena *)

Section Invariants.

Context {T : Type} `{Content T}.

(** The leaf allocated for the content [c] (lines 101-106), the
    duplicate of the leaf [nd] (lines 109-115), and the leaf level that
    reaches [buildIntermediate]. *)
Definition leafNode (t : nat) (c : T) : Node T :=
  mkNode t None None None true false (fst (CalculateHash c)) (Some c).

Definition dupNode (t : nat) (nd : Node T) : Node T :=
  mkNode t None None None true true (Hash nd) (C nd).

Definition padNodes (t : nat) (lns : list (Node T)) : list (Node T) :=
  if Nat.eqb (length lns mod 2) 1 then
    match last lns with
    | Some nd => lns ++ [dupNode t nd]
    | None => lns
    end
  else lns.

(** Every digest computation of [cs] succeeds. *)
Definition digests_ok (cs : list T) : Prop :=
  Forall (fun c => snd (CalculateHash c) = None) cs.

(** [h'] is [h] with more nodes and other parent links: no field but
    [Parent] of an existing node differs. *)
Definition ext (h h' : heap T) : Prop :=
  forall q nq, h !! q = Some nq ->
    exists nq', h' !! q = Some nq' /\ withParent None nq' = withParent None nq.

(** The nodes of [ps] carry the digests [ds], in order. *)
Definition hashesOf (h : heap T) (ps : list ptr) (ds : list bytes) : Prop :=
  Forall2 (fun p d => exists nd, h !! p = Some nd /\ Hash nd = d) ps ds.

(** An internal node carries the digest of its children's digests. *)
Definition internal_ok (digest : bytes -> bytes) (h : heap T) (nq : Node T) : Prop :=
  exists l r nl nr,
    Left nq = Some l /\ Right nq = Some r /\
    h !! l = Some nl /\ h !! r = Some nr /\
    Hash nq = digest (Hash nl ++ Hash nr).

(** A node without a parent belongs to the level under reduction; a
    parent is a later internal node that has the node as a child. *)
Definition parent_ok (h : heap T) (level : list ptr) (q : ptr) (nq : Node T) : Prop :=
  match Parent nq with
  | None => q ∈ level
  | Some n =>
      q < n /\ exists nn, h !! n = Some nn /\ leaf nn = false /\
                         (Left nn = Some q \/ Right nn = Some q)
  end.

Definition node_inv (digest : bytes -> bytes) (h : heap T) (level : list ptr)
    (q : ptr) (nq : Node T) : Prop :=
  (leaf nq = false -> internal_ok digest h nq) /\ parent_ok h level q nq.

(** Every node from [base] on satisfies [node_inv]. *)
Definition region_inv (digest : bytes -> bytes) (base : nat) (h : heap T)
    (level : list ptr) : Prop :=
  forall q nq, base <= q -> h !! q = Some nq -> node_inv digest h level q nq.

(** The nodes of [level] exist, from [start] on, and have no parent. *)
Definition fresh_level (start : nat) (h : heap T) (level : list ptr) : Prop :=
  forall q, q ∈ level ->
    start <= q /\ exists nq, h !! q = Some nq /\ Parent nq = None.

(** The parent chain of [p] ends at a node of digest [rh], and every
    parent on the way carries the digest of its two children. *)
Inductive wf_up (digest : bytes -> bytes) (h : heap T) (rh : bytes) : ptr -> Prop :=
  | up_root p np :
      h !! p = Some np -> Parent np = None -> Hash np = rh ->
      wf_up digest h rh p
  | up_step p np q nq l r nl nr :
      h !! p = Some np -> Parent np = Some q -> p < q ->
      h !! q = Some nq -> Left nq = Some l -> Right nq = Some r ->
      h !! l = Some nl -> h !! r = Some nr -> (p = l \/ p = r) ->
      Hash nq = digest (Hash nl ++ Hash nr) ->
      wf_up digest h rh q ->
      wf_up digest h rh p.

End Invariants.

(** ** The shape of a built tree *)

(** The number of levels above a level of [n] nodes, and the number of
    nodes that [buildIntermediate] allocates above it: a level of two
    nodes gets the root, a longer one a level of half its length,
    rounded up. *)
Fixpoint levels (fuel n : nat) : nat :=
  match fuel with
  | O => O
  | S fuel' => if Nat.eqb n 2 then 1 else S (levels fuel' (Nat.div2 (S n)))
  end.

Fixpoint internalCount (fuel n : nat) : nat :=
  match fuel with
  | O => O
  | S fuel' =>
      if Nat.eqb n 2 then 1
      else Nat.div2 (S n) + internalCount fuel' (Nat.div2 (S n))
  end.

Section Shape.

Context {T : Type} `{Content T}.

(** [reaches h root p k]: following [Parent] from [p] for [k] steps ends
    at [root], which has no parent. *)
Inductive reaches (h : heap T) (root : ptr) : ptr -> nat -> Prop :=
  | reaches_root nroot :
      h !! root = Some nroot -> Parent nroot = None ->
      reaches h root root 0
  | reaches_step p np q k :
      h !! p = Some np -> Parent np = Some q ->
      reaches h root q k ->
      reaches h root p (S k).

End Shape.

(** ** Proof automation *)

(** Membership in a list built from conses and appends. *)
Ltac el :=
  rewrite ?elem_of_app, ?elem_of_cons, ?list_elem_of_singleton; intuition auto.

(** Runs a concrete [NewTree]: the nodes are computed, the strategy
    stored in the tree is left as it is. *)
Ltac eval_build :=
  unfold NewTree;
  match goal with
  | |- context [buildWithContent ?cs ?t ?hs ?h] =>
      let r := eval vm_compute in (buildWithContent cs t hs h) in
      replace (buildWithContent cs t hs h) with r by (vm_compute; reflexivity)
  end;
  reflexivity.

(** Runs a closed computation on the left of an equation. *)
Ltac eval_lhs :=
  match goal with
  | |- ?lhs = _ =>
      let r := eval vm_compute in lhs in
      replace lhs with r by (vm_compute; reflexivity)
  end;
  reflexivity.

(** * Properties *)

Local Open Scope Z_scope.

Example md5_empty :
  List.map MD5.Z_of_byte (MD5.Sum []) =
  [212; 29; 140; 217; 143; 0; 178; 4; 233; 128; 9; 152; 236; 248; 66; 126].
Proof. vm_compute. reflexivity. Qed.

Example md5_abc :
  List.map MD5.Z_of_byte (MD5.Sum (bytes_of_string "abc")) =
  [144; 1; 80; 152; 60; 210; 79; 176; 214; 150; 63; 125; 40; 225; 127; 114].
Proof. vm_compute. reflexivity. Qed.

Example md5_two_blocks :
  List.map MD5.Z_of_byte
    (MD5.Sum (bytes_of_string
       "12345678901234567890123456789012345678901234567890123456789012345678901234567890")) =
  [87; 237; 244; 162; 43; 227; 201; 85; 172; 73; 218; 46; 33; 7; 182; 122].
Proof. vm_compute. reflexivity. Qed.

Local Close Scope Z_scope.


Lemma bytes_Equal_eq (a b : bytes) : bytes_Equal a b = true <-> a = b.
Proof.
  revert b. induction a as [|x a IH]; intros [|y b]; simpl; split; try done.
  - intros [Hxy Hab]%andb_prop. apply Byte.byte_dec_bl in Hxy.
    apply IH in Hab. congruence.
  - intros [= -> ->]. apply andb_true_intro. split.
    + by apply Byte.byte_dec_lb.
    + by apply IH.
Qed.

Lemma bytes_Equal_neq (a b : bytes) : bytes_Equal a b = false -> a <> b.
Proof.
  intros Hf ->. assert (bytes_Equal b b = true) by by apply bytes_Equal_eq.
  congruence.
Qed.

Section Proofs.

Context {T : Type} `{Content T}.
Implicit Types (h : heap T) (nd nq : Node T) (p q l r n : ptr).

Lemma withParent_fields par nd :
  Tree (withParent par nd) = Tree nd /\ Left (withParent par nd) = Left nd /\
  Right (withParent par nd) = Right nd /\ leaf (withParent par nd) = leaf nd /\
  dup (withParent par nd) = dup nd /\ Hash (withParent par nd) = Hash nd /\
  C (withParent par nd) = C nd /\ Parent (withParent par nd) = par.
Proof. by destruct nd. Qed.

Lemma same_fields nd nd' :
  withParent None nd' = withParent None nd ->
  Left nd' = Left nd /\ Right nd' = Right nd /\ leaf nd' = leaf nd /\
  dup nd' = dup nd /\ Hash nd' = Hash nd /\ C nd' = C nd /\ Tree nd' = Tree nd.
Proof. destruct nd, nd'; unfold withParent; simpl. by intros [= -> -> -> -> -> -> ->]. Qed.

Lemma withParent_idem par par' nd :
  withParent par (withParent par' nd) = withParent par nd.
Proof. by destruct nd. Qed.

Lemma ext_refl h : ext h h.
Proof. intros q nq Hq. eauto. Qed.

Lemma ext_trans h1 h2 h3 : ext h1 h2 -> ext h2 h3 -> ext h1 h3.
Proof.
  intros H12 H23 q nq Hq.
  destruct (H12 _ _ Hq) as (nq2 & Hq2 & E2).
  destruct (H23 _ _ Hq2) as (nq3 & Hq3 & E3).
  exists nq3. split; [done | congruence].
Qed.

Lemma ext_length h h' : ext h h' -> length h <= length h'.
Proof.
  intros Hext. destruct (decide (length h = 0)) as [|Hne]; [lia|].
  assert (is_Some (h !! (length h - 1))) as [nq Hq] by (apply lookup_lt_is_Some; lia).
  destruct (Hext _ _ Hq) as (nq' & Hq' & _).
  apply lookup_lt_Some in Hq'. lia.
Qed.

Lemma ext_hashesOf h h' ps ds : ext h h' -> hashesOf h ps ds -> hashesOf h' ps ds.
Proof.
  intros Hext Hps. eapply Forall2_impl; [exact Hps|].
  intros p d (nd & Hp & Hd). destruct (Hext _ _ Hp) as (nd' & Hp' & E).
  apply same_fields in E. destruct E as (_ & _ & _ & _ & E & _).
  exists nd'. split; [done | congruence].
Qed.

(** *** One pair *)

Lemma pairNodes_ok t hs h l r nl nr :
  h !! l = Some nl -> h !! r = Some nr ->
  Write hs (Hash nl ++ Hash nr) = None ->
  exists h',
    pairNodes t hs l r h = Some (inl (length h), h') /\
    length h' = S (length h) /\
    h' !! length h =
      Some (mkNode t None (Some l) (Some r) false false
                   (Sum hs (Hash nl ++ Hash nr)) None) /\
    forall q nq, h !! q = Some nq ->
      h' !! q = Some (if decide (q = l \/ q = r)
                      then withParent (Some (length h)) nq else nq).
Proof.
  intros Hl Hr Hw. unfold pairNodes, alloc, setParent. rewrite Hl, Hr, Hw.
  pose proof (lookup_lt_Some _ _ _ Hl) as Hll.
  pose proof (lookup_lt_Some _ _ _ Hr) as Hrl.
  set (new := mkNode t None (Some l) (Some r) false false _ None).
  rewrite (lookup_app_l_Some _ _ _ _ Hl).
  set (h2 := <[l := withParent (Some (length h)) nl]> (h ++ [new])).
  assert (exists x, h2 !! r = Some x /\
            withParent (Some (length h)) x = withParent (Some (length h)) nr)
    as (x & Hx & Ex).
  { destruct (decide (l = r)) as [->|Hne].
    - exists (withParent (Some (length h)) nl). split.
      + unfold h2. apply list_lookup_insert_eq. rewrite length_app. simpl. lia.
      + rewrite withParent_idem. congruence.
    - exists nr. split; [|done]. unfold h2.
      rewrite list_lookup_insert_ne by done. by apply lookup_app_l_Some. }
  rewrite Hx. eexists. split; [reflexivity|].
  assert (length h2 = S (length h)) as Hlen2.
  { unfold h2. rewrite length_insert, length_app. simpl. lia. }
  split; [by rewrite length_insert|]. split.
  - rewrite list_lookup_insert_ne by lia. unfold h2.
    rewrite list_lookup_insert_ne by lia.
    rewrite lookup_app_r by lia. by rewrite Nat.sub_diag.
  - intros q nq Hq. pose proof (lookup_lt_Some _ _ _ Hq) as Hql.
    destruct (decide (q = r)) as [->|Hqr].
    + rewrite list_lookup_insert_eq by lia.
      rewrite decide_True by auto. rewrite Ex. congruence.
    + rewrite list_lookup_insert_ne by done. unfold h2.
      destruct (decide (q = l)) as [->|Hql'].
      * rewrite list_lookup_insert_eq by (rewrite length_app; simpl; lia).
        rewrite decide_True by auto. congruence.
      * rewrite list_lookup_insert_ne by done.
        rewrite decide_False by tauto. by apply lookup_app_l_Some.
Qed.

Lemma pairNodes_error t hs h l r nl nr e :
  h !! l = Some nl -> h !! r = Some nr ->
  Write hs (Hash nl ++ Hash nr) = Some e ->
  pairNodes t hs l r h = Some (inr e, h).
Proof. intros Hl Hr Hw. unfold pairNodes. by rewrite Hl, Hr, Hw. Qed.

(** *** One level *)

Lemma list_pair_ind {A : Type} (P : list A -> Prop) :
  P [] -> (forall x, P [x]) -> (forall x y xs, P xs -> P (x :: y :: xs)) ->
  forall xs, P xs.
Proof.
  intros H0 H1 H2.
  assert (forall xs, P xs /\ forall x, P (x :: xs)) as Hboth.
  { induction xs as [|y xs [IH1 IH2]]; split; auto. }
  intros xs. apply Hboth.
Qed.

Lemma internal_ok_ext digest h h' nq nq' :
  ext h h' -> withParent None nq' = withParent None nq ->
  internal_ok digest h nq -> internal_ok digest h' nq'.
Proof.
  intros Hext E (l & r & nl & nr & HL & HR & Hl & Hr & HH).
  apply same_fields in E. destruct E as (EL & ER & _ & _ & EH & _).
  destruct (Hext _ _ Hl) as (nl' & Hl' & El). apply same_fields in El.
  destruct (Hext _ _ Hr) as (nr' & Hr' & Er). apply same_fields in Er.
  destruct El as (_ & _ & _ & _ & El & _), Er as (_ & _ & _ & _ & Er & _).
  exists l, r, nl', nr'. repeat split; congruence.
Qed.

Section Level.

Variables (t : nat) (hs : hash_Hash) (base : nat).

(** The effect of one pair on the invariants: [cur] is the part of the
    level that the pair consumes. *)
Lemma step_inv h h1 l r nl nr cur rest nodes start :
  (forall q, q ∈ cur <-> q = l \/ q = r) ->
  h !! l = Some nl -> h !! r = Some nr ->
  l < start -> r < start -> start <= length h ->
  length h1 = S (length h) ->
  h1 !! length h =
    Some (mkNode t None (Some l) (Some r) false false
                 (Sum hs (Hash nl ++ Hash nr)) None) ->
  (forall q nq, h !! q = Some nq ->
     h1 !! q = Some (if decide (q = l \/ q = r)
                     then withParent (Some (length h)) nq else nq)) ->
  fresh_level start h nodes ->
  region_inv (Sum hs) base h (cur ++ rest ++ nodes) ->
  ext h h1 /\
  (forall q, q < length h -> q <> l -> q <> r -> h1 !! q = h !! q) /\
  fresh_level start h1 (nodes ++ [length h]) /\
  region_inv (Sum hs) base h1 (rest ++ nodes ++ [length h]).
Proof.
  intros Hcur Hl Hr Hls Hrs Hst Hlen Hnew Hold Hfresh Hinv.
  assert (ext h h1) as Hext.
  { intros q nq Hq. eexists. split; [by apply Hold|].
    case_decide; [by rewrite withParent_idem | done]. }
  assert (forall q, q < length h -> q <> l -> q <> r -> h1 !! q = h !! q) as Hsame.
  { intros q Hq Hql Hqr. destruct (lookup_lt_is_Some_2 h q Hq) as [nq Hnq].
    rewrite Hnq, (Hold _ _ Hnq). by rewrite decide_False by tauto. }
  split; [done|]. split; [done|]. split.
  - intros q [Hq | ->%list_elem_of_singleton]%elem_of_app.
    + destruct (Hfresh _ Hq) as (Hsq & nq & Hnq & Hp).
      split; [done|]. exists nq. split; [|done].
      rewrite Hsame; [done | by eapply lookup_lt_Some | lia | lia].
    + split; [done|]. eexists. split; [exact Hnew | done].
  - intros q nq1 Hbase Hq1.
    assert (q < S (length h)) as Hq by (rewrite <- Hlen; by eapply lookup_lt_Some).
    destruct (decide (q = length h)) as [->|Hne].
    + rewrite Hnew in Hq1. injection Hq1 as <-. split.
      * intros _. destruct (Hext _ _ Hl) as (nl' & Hl' & El).
        destruct (Hext _ _ Hr) as (nr' & Hr' & Er).
        apply same_fields in El. apply same_fields in Er.
        destruct El as (_ & _ & _ & _ & El & _), Er as (_ & _ & _ & _ & Er & _).
        exists l, r, nl', nr'. simpl. repeat split; congruence.
      * unfold parent_ok. simpl. rewrite !elem_of_app, list_elem_of_singleton. auto.
    + destruct (lookup_lt_is_Some_2 h q ltac:(lia)) as [nq Hnq].
      pose proof (Hold _ _ Hnq) as Hq1'. rewrite Hq1 in Hq1'.
      injection Hq1' as ->.
      destruct (Hinv _ _ Hbase Hnq) as [Hint Hpar]. split.
      * intros Hleaf. eapply internal_ok_ext; [exact Hext | | apply Hint].
        -- case_decide; [by rewrite withParent_idem | done].
        -- case_decide; [by destruct nq | done].
      * case_decide as Hlr.
        -- unfold parent_ok. rewrite (proj2 (proj2 (proj2 (proj2 (proj2 (proj2
                                   (proj2 (withParent_fields _ nq)))))))).
           split; [lia|]. eexists. split; [exact Hnew|]. simpl.
           split; [done|]. destruct Hlr; subst; auto.
        -- unfold parent_ok in *. destruct (Parent nq) as [m|].
           ++ destruct Hpar as (Hqm & nn & Hm & Hleaf & Hch).
              split; [done|]. destruct (Hext _ _ Hm) as (nn' & Hm' & E).
              apply same_fields in E. destruct E as (EL & ER & Elf & _).
              exists nn'. split; [done|]. split; [congruence|].
              destruct Hch; [left | right]; congruence.
           ++ apply elem_of_app in Hpar as [Hc | Hrn].
              ** apply Hcur in Hc. tauto.
              ** rewrite app_assoc. apply elem_of_app. by left.
Qed.

Lemma length_pairHashes_le digest (ds : list bytes) :
  length (pairHashes digest ds) <= length ds /\
  (ds <> [] -> 1 <= length (pairHashes digest ds)).
Proof.
  induction ds as [|x|x y ds [IH1 IH2]] using list_pair_ind; simpl;
    split; intros; try done; lia.
Qed.

Lemma length_pairHashes_lt digest (ds : list bytes) :
  3 <= length ds ->
  2 <= length (pairHashes digest ds) /\ length (pairHashes digest ds) < length ds.
Proof.
  destruct ds as [|x [|y ds]]; simpl; try lia. intros Hlen.
  destruct (length_pairHashes_le digest ds) as [Hle Hge].
  assert (ds <> []) as Hne by (intros ->; simpl in *; lia).
  specialize (Hge Hne). lia.
Qed.

(** No [Write] of the strategy fails (as for [md5.New]). *)
Hypothesis Hwrite : forall data, Write hs data = None.

(** The loop of [buildIntermediate] on a level that is not of length 2
    runs to its end: it returns the next level, whose digests are the
    pairwise digests of the level. *)
Lemma pairLoop_ok len start :
  len <> 2 -> base <= start ->
  forall rest nodes h ds acc,
    start <= length h ->
    (forall q, q ∈ rest -> q < start) ->
    hashesOf h rest ds ->
    hashesOf h nodes acc ->
    fresh_level start h nodes ->
    region_inv (Sum hs) base h (rest ++ nodes) ->
    exists nodes' h',
      pairLoop t hs len rest nodes h = Some (Next nodes', h') /\
      ext h h' /\
      (forall q, q < start -> q ∉ rest -> h' !! q = h !! q) /\
      hashesOf h' nodes' (acc ++ pairHashes (Sum hs) ds) /\
      fresh_level start h' nodes' /\
      region_inv (Sum hs) base h' nodes'.
Proof.
  intros Hlen Hbase rest.
  apply Nat.eqb_neq in Hlen.
  induction rest as [|l|l r rest IH] using list_pair_ind;
    intros nodes h ds acc Hst Hrest Hds Hacc Hfresh Hinv.
  - apply Forall2_nil_inv_l in Hds as ->. exists nodes, h. simpl.
    rewrite app_nil_r. split; [done|]. split; [apply ext_refl|].
    split; [done|]. split; [done|]. split; done.
  - apply Forall2_cons_inv_l in Hds as (dl & ds' & (nl & Hl & <-) & Hds & ->).
    apply Forall2_nil_inv_l in Hds as ->.
    destruct (pairNodes_ok t hs h l l nl nl Hl Hl (Hwrite _))
      as (h1 & Hpair & Hlen1 & Hnew & Hold).
    assert (l < start) as Hls by (apply Hrest; el).
    destruct (step_inv h h1 l l nl nl [l] [] nodes start) as (Hext & Hsame & Hfr1 & Hinv1);
      try done.
    { intros q. rewrite list_elem_of_singleton. tauto. }
    exists (nodes ++ [length h]), h1. simpl. rewrite Hpair. simpl. rewrite Hlen.
    split; [done|]. split; [done|]. split.
    { intros q Hq Hnin. apply Hsame; [lia | intros ->; apply Hnin; el ..]. }
    split; [|done].
    apply Forall2_app; [by eapply ext_hashesOf|].
    constructor; [|constructor]. eexists. split; [exact Hnew | done].
  - apply Forall2_cons_inv_l in Hds as (dl & ds1 & (nl & Hl & <-) & Hds & ->).
    apply Forall2_cons_inv_l in Hds as (dr & ds' & (nr & Hr & <-) & Hds & ->).
    destruct (pairNodes_ok t hs h l r nl nr Hl Hr (Hwrite _))
      as (h1 & Hpair & Hlen1 & Hnew & Hold).
    assert (l < start) as Hls by (apply Hrest; el).
    assert (r < start) as Hrs by (apply Hrest; el).
    destruct (step_inv h h1 l r nl nr [l; r] rest nodes start)
      as (Hext & Hsame & Hfr1 & Hinv1); try done.
    { intros q. rewrite !elem_of_cons, elem_of_nil. tauto. }
    destruct (IH (nodes ++ [length h]) h1 ds'
                 (acc ++ [Sum hs (Hash nl ++ Hash nr)]))
      as (nodes' & h' & Hloop & Hext' & Hsame' & Hds' & Hfr' & Hinv'); try done.
    + lia.
    + intros q Hq. apply Hrest. el.
    + by eapply ext_hashesOf.
    + apply Forall2_app; [by eapply ext_hashesOf|].
      constructor; [|constructor]. eexists. split; [exact Hnew | done].
    + exists nodes', h'. simpl. rewrite Hpair. simpl. rewrite Hlen.
      split; [done|]. split; [by eapply ext_trans|]. split.
      { intros q Hq Hnin. rewrite Hsame'; [|done|intros Hin; apply Hnin; el].
        apply Hsame; [lia | intros ->; apply Hnin; el ..]. }
      split; [|done]. by rewrite <- app_assoc in Hds'.
Qed.

(** *** All levels *)

(** On a level of at least two nodes [buildIntermediate] returns a root
    as soon as the fuel covers the length of the level. *)
Lemma buildIntermediate_ok fuel :
  forall nl h ds start,
    2 <= length nl -> length nl <= fuel ->
    base <= start -> start <= length h ->
    (forall q, q ∈ nl -> q < start) ->
    hashesOf h nl ds ->
    region_inv (Sum hs) base h nl ->
    exists root nroot h',
      buildIntermediate fuel nl t hs h = Some ((Some root, None), h') /\
      ext h h' /\
      (forall q, q < start -> q ∉ nl -> h' !! q = h !! q) /\
      h' !! root = Some nroot /\ Parent nroot = None /\
      rootHash (Sum hs) fuel ds = Some (Hash nroot) /\
      region_inv (Sum hs) base h' [root] /\
      leaf nroot = false /\ start <= root.
Proof.
  induction fuel as [|fuel IH]; intros nl h ds start H2 Hfuel Hbase Hst Hnl Hds Hinv;
    [lia|].
  pose proof (Forall2_length _ _ _ Hds) as Hlen.
  destruct (decide (length nl = 2)) as [Htwo | Hne].
  - destruct nl as [|l [|r [|? ?]]]; try done. clear H2 Htwo.
    apply Forall2_cons_inv_l in Hds as (dl & ds1 & (nl & Hl & <-) & Hds & ->).
    apply Forall2_cons_inv_l in Hds as (dr & ds' & (nr & Hr & <-) & Hds & ->).
    apply Forall2_nil_inv_l in Hds as ->.
    destruct (pairNodes_ok t hs h l r nl nr Hl Hr (Hwrite _))
      as (h1 & Hpair & Hlen1 & Hnew & Hold).
    assert (l < start) as Hls by (apply Hnl; el).
    assert (r < start) as Hrs by (apply Hnl; el).
    destruct (step_inv h h1 l r nl nr [l; r] [] [] start)
      as (Hext & Hsame & Hfr1 & Hinv1); try done.
    { intros q. rewrite !elem_of_cons, elem_of_nil. tauto. }
    { intros q Hq. by apply elem_of_nil in Hq. }
    eexists (length h), _, h1. simpl. rewrite Hpair. simpl.
    split; [done|]. split; [done|]. split.
    { intros q Hq Hnin. apply Hsame; [lia | intros ->; apply Hnin; el ..]. }
    split; [exact Hnew|]. split; [done|]. split; [done|].
    split; [exact Hinv1|]. split; [done|]. lia.
  - destruct (pairLoop_ok (length nl) start Hne Hbase nl [] h ds [])
      as (nodes' & h1 & Hloop & Hext & Hsame & Hds' & Hfr & Hinv1); try done.
    { constructor. }
    { intros q Hq. by apply elem_of_nil in Hq. }
    { by rewrite app_nil_r. }
    simpl in Hds'. pose proof (Forall2_length _ _ _ Hds') as Hlen'.
    destruct (length_pairHashes_lt (Sum hs) ds ltac:(lia)) as [Hge Hlt].
    pose proof (ext_length _ _ Hext) as Hle.
    destruct (IH nodes' h1 (pairHashes (Sum hs) ds) (length h1))
      as (root & nroot & h' & Hbuild & Hext' & Hsame' & Hroot & Hpar & Hrh & Hinv'
          & Hleaf & Hge');
      try done; try lia.
    { intros q Hq. destruct (Hfr _ Hq) as (_ & nq & Hnq & _).
      by eapply lookup_lt_Some. }
    exists root, nroot, h'. simpl. rewrite Hloop.
    split; [done|]. split; [by eapply ext_trans|]. split.
    { intros q Hq Hnin. rewrite Hsame'; [by apply Hsame | lia |].
      intros Hin. destruct (Hfr _ Hin) as (? & _). lia. }
    split; [done|]. split; [done|]. split.
    { rewrite <- Hrh. destruct ds as [|a [|b [|c ds]]]; simpl in *; try done; lia. }
    split; [done|]. split; [done|]. lia.
Qed.

End Level.

(** On an empty level the recursion of [buildIntermediate] never ends:
    no amount of fuel yields a result. *)
Lemma buildIntermediate_empty_level fuel t hs h :
  buildIntermediate fuel [] t hs h = None.
Proof. induction fuel as [|fuel IH]; [done | exact IH]. Qed.

(** *** Parent chains *)

(** Once a single parentless node is left, every node of the region
    reaches it. *)
Lemma region_wf_up digest base h root nroot :
  region_inv digest base h [root] ->
  h !! root = Some nroot ->
  forall q, base <= q -> q < length h -> wf_up digest h (Hash nroot) q.
Proof.
  intros Hinv Hroot q Hbase Hq.
  remember (length h - q) as k eqn:Hk. revert q Hbase Hq Hk.
  induction k as [k IH] using lt_wf_ind. intros q Hbase Hq ->.
  destruct (lookup_lt_is_Some_2 h q Hq) as [nq Hnq].
  destruct (Hinv _ _ Hbase Hnq) as [_ Hpar]. unfold parent_ok in Hpar.
  destruct (Parent nq) as [n|] eqn:HP.
  - destruct Hpar as (Hqn & nn & Hn & Hleaf & Hch).
    pose proof (lookup_lt_Some _ _ _ Hn) as Hnlt.
    destruct (Hinv n nn ltac:(lia) Hn) as [Hint _].
    destruct (Hint Hleaf) as (l & r & nl & nr & HL & HR & Hl & Hr & HH).
    eapply (up_step digest h _ q nq n nn l r nl nr); try done.
    + destruct Hch; [left | right]; congruence.
    + eapply (IH (length h - n)); [lia | lia | done | done].
  - apply list_elem_of_singleton in Hpar as ->.
    eapply up_root; [done | done | congruence].
Qed.

(** The walk along a well-formed chain ends, and the emitted path folds
    back to the digest at the end of the chain. *)
Lemma walk_wf_up digest h rh p :
  wf_up digest h rh p ->
  forall np fuel acc acci,
    h !! p = Some np -> length h - p <= fuel ->
    exists path idx,
      walk fuel h p (Parent np) acc acci = Some (acc ++ path, acci ++ idx) /\
      foldPath digest (Hash np) path idx = rh /\
      length idx = length path.
Proof.
  induction 1 as [p np Hp HP HH | p np q nq l r nl nr Hp HP Hpq Hq HL HR Hl Hr Hch HH Hup IH];
    intros np' fuel acc acci Hp' Hfuel; rewrite Hp in Hp'; injection Hp' as <-.
  - exists [], []. rewrite HP, !app_nil_r. by destruct fuel.
  - pose proof (lookup_lt_Some _ _ _ Hq) as Hqlt.
    destruct fuel as [|fuel]; [lia|].
    rewrite HP. simpl. rewrite Hq, Hp, HL, Hl.
    destruct (bytes_Equal (Hash nl) (Hash np)) eqn:Heq.
    + apply bytes_Equal_eq in Heq. rewrite HR, Hr.
      destruct (IH nq fuel (acc ++ [Hash nr]) (acci ++ [1%Z]) Hq ltac:(lia))
        as (path & idx & Hwalk & Hfold & Hlen).
      exists (Hash nr :: path), (1%Z :: idx).
      rewrite Hwalk, <- !app_assoc. simpl.
      split; [done|]. split; [|lia]. rewrite <- Heq, <- HH. done.
    + apply bytes_Equal_neq in Heq.
      assert (p = r) as -> by (destruct Hch as [-> | ->]; [congruence | done]).
      assert (nr = np) as -> by congruence.
      destruct (IH nq fuel (acc ++ [Hash nl]) (acci ++ [0%Z]) Hq ltac:(lia))
        as (path & idx & Hwalk & Hfold & Hlen).
      exists (Hash nl :: path), (0%Z :: idx).
      rewrite Hwalk, <- !app_assoc. simpl.
      split; [done|]. split; [|lia]. rewrite <- HH. done.
Qed.

(** *** The leaf level *)

Lemma leafLoop_ok t cs :
  digests_ok cs ->
  forall leafs h,
    leafLoop cs t leafs h =
      (inl (leafs ++ seq (length h) (length cs)), h ++ map (leafNode t) cs).
Proof.
  induction 1 as [|c cs Hc Hcs IH]; intros leafs h; simpl.
  - by rewrite !app_nil_r.
  - unfold leafNode at 1. destruct (CalculateHash c) as [hash err].
    simpl in Hc. subst err. unfold alloc. rewrite IH.
    rewrite length_app, <- !app_assoc. simpl.
    by replace (length h + 1) with (S (length h)) by lia.
Qed.

Lemma leafLoop_error t pre c post x e :
  digests_ok pre -> CalculateHash c = (x, Some e) ->
  forall leafs h,
    leafLoop (pre ++ c :: post) t leafs h = (inr e, h ++ map (leafNode t) pre).
Proof.
  intros Hpre Hc. induction Hpre as [|c0 pre Hc0 Hpre IH]; intros leafs h; simpl.
  - by rewrite Hc, app_nil_r.
  - unfold leafNode at 1. destruct (CalculateHash c0) as [hash err].
    simpl in Hc0. subst err. unfold alloc. rewrite IH.
    by rewrite <- app_assoc.
Qed.

(** The loop either hashes every item or stops at the first failure. *)
Lemma leafLoop_cases (cs : list T) :
  digests_ok cs \/
  exists pre c post x e,
    cs = pre ++ c :: post /\ digests_ok pre /\ CalculateHash c = (x, Some e).
Proof.
  induction cs as [|c cs IH].
  - left. constructor.
  - destruct (CalculateHash c) as [x [e|]] eqn:Hc.
    + right. exists [], c, cs, x, e. split; [done|]. split; [constructor | done].
    + destruct IH as [Hok | (pre & c' & post & x' & e & -> & Hpre & Hc')].
      * left. constructor; [by rewrite Hc | done].
      * right. exists (c :: pre), c', post, x', e.
        split; [done|]. split; [|done]. constructor; [by rewrite Hc | done].
Qed.

Lemma padNodes_leaf t (lns : list (Node T)) :
  Forall (fun nd => leaf nd = true /\ Parent nd = None) lns ->
  Forall (fun nd => leaf nd = true /\ Parent nd = None) (padNodes t lns).
Proof.
  intros Hl. unfold padNodes. destruct (_ =? _); [|done].
  destruct (last lns); [|done]. apply Forall_app. split; [done|].
  by repeat constructor.
Qed.

Lemma padNodes_length t (lns : list (Node T)) :
  lns <> [] -> 2 <= length (padNodes t lns).
Proof.
  intros Hne. unfold padNodes. destruct (length lns mod 2 =? 1) eqn:Hodd.
  - destruct (last lns) eqn:Hlast.
    + rewrite length_app. simpl. destruct lns; [done | simpl; lia].
    + apply last_None in Hlast. done.
  - destruct lns as [|a [|b lns]]; [done | done | simpl; lia].
Qed.

Lemma last_map {A B : Type} (f : A -> B) (xs : list A) :
  last (map f xs) = option_map f (last xs).
Proof.
  induction xs as [|x xs IH]; [done|].
  destruct xs as [|y xs]; [done|].
  change (last (map f (x :: y :: xs))) with (last (map f (y :: xs))).
  by rewrite IH.
Qed.

Lemma padNodes_hashes t (lns : list (Node T)) :
  map Hash (padNodes t lns) = padHashes (map Hash lns).
Proof.
  unfold padNodes, padHashes. rewrite length_map, last_map.
  destruct (_ =? _); [|done].
  destruct (last lns); simpl; [|done]. by rewrite map_app.
Qed.

Lemma padLeafs_ok t h0 (lns : list (Node T)) :
  lns <> [] ->
  padLeafs t (seq (length h0) (length lns)) (h0 ++ lns) =
    Some (seq (length h0) (length (padNodes t lns)), h0 ++ padNodes t lns).
Proof.
  intros Hne. unfold padLeafs, padNodes. rewrite length_seq.
  destruct (_ =? _); [|done].
  assert (0 < length lns) as Hpos by (destruct lns; [done | simpl; lia]).
  rewrite !last_lookup, length_seq.
  rewrite lookup_seq_lt by lia.
  rewrite lookup_app_r by lia.
  replace (length h0 + pred (length lns) - length h0) with (pred (length lns)) by lia.
  destruct (lookup_lt_is_Some_2 lns (pred (length lns)) ltac:(lia)) as [nd Hnd].
  rewrite Hnd. unfold alloc, dupNode. rewrite !length_app. simpl.
  rewrite Nat.add_1_r, seq_S, <- app_assoc. done.
Qed.

Lemma leaves_hashesOf h0 (lns : list (Node T)) :
  hashesOf (h0 ++ lns) (seq (length h0) (length lns)) (map Hash lns).
Proof.
  apply Forall2_same_length_lookup. split.
  - by rewrite length_seq, length_map.
  - intros i p d Hp Hd. apply lookup_seq in Hp as [-> Hi].
    rewrite list_lookup_fmap in Hd.
    destruct (lns !! i) as [nd|] eqn:Hnd; [|done]. injection Hd as <-.
    exists nd. split; [|done]. rewrite lookup_app_r by lia.
    by replace (length h0 + i - length h0) with i by lia.
Qed.

Lemma leaves_region_inv digest h0 (lns : list (Node T)) :
  Forall (fun nd => leaf nd = true /\ Parent nd = None) lns ->
  region_inv digest (length h0) (h0 ++ lns) (seq (length h0) (length lns)).
Proof.
  intros Hl q nq Hq Hnq. rewrite lookup_app_r in Hnq by done.
  pose proof (lookup_lt_Some _ _ _ Hnq) as Hlt.
  rewrite Forall_lookup in Hl. destruct (Hl _ _ Hnq) as [Hleaf Hpar].
  split; [congruence|]. unfold parent_ok. rewrite Hpar.
  apply elem_of_seq. lia.
Qed.

(** *** The whole build *)


Lemma buildWithContent_error t hs h0 pre c post x e :
  digests_ok pre -> CalculateHash c = (x, Some e) ->
  buildWithContent (pre ++ c :: post) t hs h0 =
    Some ((None, [], Some e), h0 ++ map (leafNode t) pre).
Proof.
  intros Hpre Hc. unfold buildWithContent.
  rewrite (leafLoop_error t pre c post x e Hpre Hc).
  by destruct pre.
Qed.

Lemma buildWithContent_ok t hs h0 cs :
  (forall data, Write hs data = None) ->
  cs <> [] -> digests_ok cs ->
  exists root nroot h',
    buildWithContent cs t hs h0 =
      Some ((Some root,
             seq (length h0) (length (padNodes t (map (leafNode t) cs))),
             None), h') /\
    ext (h0 ++ padNodes t (map (leafNode t) cs)) h' /\
    (forall q, q < length h0 -> h' !! q = h0 !! q) /\
    h' !! root = Some nroot /\ Parent nroot = None /\
    rootHash (Sum hs) (length (padNodes t (map (leafNode t) cs)))
             (map Hash (padNodes t (map (leafNode t) cs))) = Some (Hash nroot) /\
    region_inv (Sum hs) (length h0) h' [root] /\
    leaf nroot = false /\
    length h0 + length (padNodes t (map (leafNode t) cs)) <= root.
Proof.
  intros Hwrite Hne Hok. unfold buildWithContent.
  rewrite (leafLoop_ok t cs Hok). simpl.
  replace (length cs =? 0) with false by (destruct cs; done).
  replace (length cs) with (length (map (leafNode t) cs)) by apply length_map.
  assert (map (leafNode t) cs <> []) as Hne' by (destruct cs; done).
  rewrite (padLeafs_ok t h0 _ Hne').
  set (lns := padNodes t (map (leafNode t) cs)).
  assert (Forall (fun nd => leaf nd = true /\ Parent nd = None) lns) as Hleafs.
  { apply padNodes_leaf. apply Forall_forall. intros nd Hnd.
    apply list_elem_of_In, in_map_iff in Hnd as (c & <- & _). done. }
  pose proof (padNodes_length t _ Hne') as Hlen. fold lns in Hlen.
  destruct (buildIntermediate_ok t hs (length h0) Hwrite
              (length (seq (length h0) (length lns)))
              (seq (length h0) (length lns)) (h0 ++ lns) (map Hash lns)
              (length h0 + length lns))
    as (root & nroot & h' & Hbuild & Hext & Hsame & Hroot & Hpar & Hrh & Hinv
        & Hleaf & Hge).
  - by rewrite length_seq.
  - done.
  - lia.
  - rewrite length_app. lia.
  - intros q Hq. apply elem_of_seq in Hq. lia.
  - apply leaves_hashesOf.
  - by apply leaves_region_inv.
  - exists root, nroot, h'. rewrite Hbuild. rewrite length_seq in Hrh.
    split; [done|]. split; [done|]. split; [|by repeat (split; [done|])].
    intros q Hq. rewrite Hsame.
    + by apply lookup_app_l.
    + lia.
    + rewrite elem_of_seq. lia.
Qed.

(** What a successful [NewTree] has built. *)
Lemma NewTree_ok cs st :
  cs <> [] -> digests_ok cs ->
  exists root nroot h',
    NewTree cs st =
      Some ((Some (mkTree (Some root) (Hash nroot)
                     (seq (length (nodes st))
                          (length (padNodes (trees st) (map (leafNode (trees st)) cs))))
                     md5_New), None),
            mkStore h' (S (trees st))) /\
    ext (nodes st ++ padNodes (trees st) (map (leafNode (trees st)) cs)) h' /\
    (forall q, q < length (nodes st) -> h' !! q = nodes st !! q) /\
    h' !! root = Some nroot /\ Parent nroot = None /\
    rootHash MD5.Sum (length (padNodes (trees st) (map (leafNode (trees st)) cs)))
             (map Hash (padNodes (trees st) (map (leafNode (trees st)) cs)))
      = Some (Hash nroot) /\
    region_inv MD5.Sum (length (nodes st)) h' [root] /\
    leaf nroot = false /\
    length (nodes st)
      + length (padNodes (trees st) (map (leafNode (trees st)) cs)) <= root.
Proof.
  intros Hne Hok.
  destruct (buildWithContent_ok (trees st) md5_New (nodes st) cs) as
    (root & nroot & h' & Hbuild & Hrest); [done | done | done |].
  exists root, nroot, h'. split; [|exact Hrest].
  unfold NewTree. rewrite Hbuild.
  destruct Hrest as (_ & _ & -> & _). done.
Qed.

Lemma NewTree_inv cs st m st' :
  NewTree cs st = Some ((Some m, None), st') -> cs <> [] /\ digests_ok cs.
Proof.
  intros Hnew. split.
  - intros ->. discriminate Hnew.
  - destruct (leafLoop_cases cs) as [Hok | (pre & c & post & x & e & -> & Hpre & Hc)];
      [done|].
    unfold NewTree in Hnew.
    rewrite (buildWithContent_error _ _ _ pre c post x e Hpre Hc) in Hnew.
    discriminate Hnew.
Qed.

(** A successful [NewTree], taken apart. *)
Lemma NewTree_success cs st m st' :
  NewTree cs st = Some ((Some m, None), st') ->
  exists root nroot,
    cs <> [] /\ digests_ok cs /\
    m = mkTree (Some root) (Hash nroot)
          (seq (length (nodes st))
               (length (padNodes (trees st) (map (leafNode (trees st)) cs))))
          md5_New /\
    trees st' = S (trees st) /\
    ext (nodes st ++ padNodes (trees st) (map (leafNode (trees st)) cs)) (nodes st') /\
    (forall q, q < length (nodes st) -> nodes st' !! q = nodes st !! q) /\
    nodes st' !! root = Some nroot /\ Parent nroot = None /\
    rootHash MD5.Sum (length (padNodes (trees st) (map (leafNode (trees st)) cs)))
             (map Hash (padNodes (trees st) (map (leafNode (trees st)) cs)))
      = Some (Hash nroot) /\
    region_inv MD5.Sum (length (nodes st)) (nodes st') [root] /\
    leaf nroot = false /\
    length (nodes st)
      + length (padNodes (trees st) (map (leafNode (trees st)) cs)) <= root.
Proof.
  intros Hnew. destruct (NewTree_inv _ _ _ _ Hnew) as [Hne Hok].
  destruct (NewTree_ok cs st Hne Hok) as (root & nroot & h' & Heq & Hrest).
  rewrite Hnew in Heq. injection Heq as -> ->.
  exists root, nroot. simpl. by repeat (split; [done|]).
Qed.

Lemma padNodes_lookup t (lns : list (Node T)) i nd :
  lns !! i = Some nd -> padNodes t lns !! i = Some nd.
Proof.
  intros Hi. unfold padNodes. destruct (_ =? _); [|done].
  destruct (last lns); [|done]. by apply lookup_app_l_Some.
Qed.

(** The leaf of the [i]-th content item in the arena after the build. *)
Lemma built_leaf cs st m st' i c :
  NewTree cs st = Some ((Some m, None), st') ->
  cs !! i = Some c ->
  exists np,
    Leafs m !! i = Some (length (nodes st) + i) /\
    nodes st' !! (length (nodes st) + i) = Some np /\
    C np = Some c /\ Hash np = fst (CalculateHash c) /\
    leaf np = true /\ dup np = false.
Proof.
  intros Hnew Hi.
  destruct (NewTree_success _ _ _ _ Hnew)
    as (root & nroot & Hne & Hok & -> & _ & Hext & _).
  set (lns := padNodes _ _) in *.
  assert (lns !! i = Some (leafNode (trees st) c)) as Hlns.
  { apply padNodes_lookup. rewrite list_lookup_fmap, Hi. done. }
  destruct (Hext (length (nodes st) + i) (leafNode (trees st) c))
    as (np & Hnp & E).
  { rewrite lookup_app_r by lia.
    by replace (length (nodes st) + i - length (nodes st)) with i by lia. }
  apply same_fields in E. destruct E as (_ & _ & Elf & Edup & EH & EC & _).
  exists np. simpl. split.
  - apply lookup_seq. split; [done|]. by eapply lookup_lt_Some.
  - by repeat split.
Qed.

(** *** The scan of the leaves *)

Lemma scanLeafs_match h content :
  forall leafs i p np c,
    (forall j q, j < i -> leafs !! j = Some q ->
       exists nq cq, h !! q = Some nq /\ C nq = Some cq /\
                     Equals cq content = (false, None)) ->
    leafs !! i = Some p -> h !! p = Some np -> C np = Some c ->
    Equals c content = (true, None) ->
    scanLeafs leafs content h =
      match walk (length h) h p (Parent np) [] [] with
      | None => None
      | Some (merklePath, index) => Some (merklePath, index, None)
      end.
Proof.
  induction leafs as [|q0 leafs IH]; intros i p np c Hbefore Hi Hp HC Heq; [done|].
  destruct i as [|i]; simpl in *.
  - injection Hi as ->. by rewrite Hp, HC, Heq.
  - destruct (Hbefore 0 q0 ltac:(lia) eq_refl) as (nq & cq & Hq & HCq & Hf).
    rewrite Hq, HCq, Hf. eapply IH; try done.
    intros j q Hj Hjq. apply (Hbefore (S j) q); [lia | done].
Qed.

Lemma scanLeafs_absent h content leafs :
  Forall (fun q => exists nq cq, h !! q = Some nq /\ C nq = Some cq /\
                                 Equals cq content = (false, None)) leafs ->
  scanLeafs leafs content h = Some ([], [], None).
Proof.
  induction 1 as [|q leafs (nq & cq & Hq & HC & Hf) _ IH]; [done|].
  simpl. by rewrite Hq, HC, Hf.
Qed.

Lemma scanLeafs_error h content pre q post nq cq b e :
  Forall (fun q => exists nq cq, h !! q = Some nq /\ C nq = Some cq /\
                                 Equals cq content = (false, None)) pre ->
  h !! q = Some nq -> C nq = Some cq -> Equals cq content = (b, Some e) ->
  scanLeafs (pre ++ q :: post) content h = Some ([], [], Some e).
Proof.
  intros Hpre Hq HC He.
  induction Hpre as [|q0 pre (nq0 & cq0 & Hq0 & HC0 & Hf) _ IH]; simpl.
  - by rewrite Hq, HC, He.
  - by rewrite Hq0, HC0, Hf.
Qed.

(** *** The last pair of a level *)

Lemma pairNodes_inv t hs h l r n h' :
  pairNodes t hs l r h = Some (inl n, h') ->
  exists nl nr,
    h !! l = Some nl /\ h !! r = Some nr /\ n = length h /\
    length h' = S (length h) /\
    h' !! length h =
      Some (mkNode t None (Some l) (Some r) false false
                   (Sum hs (Hash nl ++ Hash nr)) None) /\
    forall q nq, h !! q = Some nq ->
      h' !! q = Some (if decide (q = l \/ q = r)
                      then withParent (Some (length h)) nq else nq).
Proof.
  intros Hpair.
  destruct (h !! l) as [nl|] eqn:Hl; [|by unfold pairNodes in Hpair; rewrite Hl in Hpair].
  destruct (h !! r) as [nr|] eqn:Hr; [|by unfold pairNodes in Hpair; rewrite Hl, Hr in Hpair].
  destruct (Write hs (Hash nl ++ Hash nr)) as [e|] eqn:Hw.
  - rewrite (pairNodes_error t hs h l r nl nr e Hl Hr Hw) in Hpair. done.
  - destruct (pairNodes_ok t hs h l r nl nr Hl Hr Hw) as (h'' & Heq & Hrest).
    rewrite Hpair in Heq. injection Heq as -> ->.
    exists nl, nr. by repeat (split; [done|]).
Qed.

(** The last pair that the loop of [buildIntermediate] consumes - the
    last two nodes of a level, or its last node twice when the length is
    odd - yields the last node of the next level, and one node is
    allocated per pair. *)
Lemma pairLoop_last t hs len a b cur :
  (cur = [a] /\ b = a) \/ cur = [a; b] ->
  forall pre nodes h nodes' h',
    Nat.even (length pre) = true ->
    pairLoop t hs len (pre ++ cur) nodes h = Some (Next nodes', h') ->
    exists n nn na nb,
      last nodes' = Some n /\ length h' = S n /\
      h' !! n = Some nn /\ Left nn = Some a /\ Right nn = Some b /\
      leaf nn = false /\
      h' !! a = Some na /\ Parent na = Some n /\
      h' !! b = Some nb /\ Parent nb = Some n /\
      Hash nn = Sum hs (Hash na ++ Hash nb) /\
      length h' = length h + Nat.div2 (S (length (pre ++ cur))) /\
      length nodes' = length nodes + Nat.div2 (S (length (pre ++ cur))).
Proof.
  intros Hcur pre.
  assert (forall nodes h nodes' h',
            withPair (pairNodes t hs a b h) (fun n h1 =>
              if len =? 2 then Some (Return (Some n) None, h1)
              else Some (Next (nodes ++ [n]), h1)) = Some (Next nodes', h') ->
            exists n nn na nb,
              last nodes' = Some n /\ length h' = S n /\
              h' !! n = Some nn /\ Left nn = Some a /\ Right nn = Some b /\
              leaf nn = false /\
              h' !! a = Some na /\ Parent na = Some n /\
              h' !! b = Some nb /\ Parent nb = Some n /\
              Hash nn = Sum hs (Hash na ++ Hash nb) /\
              length h' = length h + 1 /\
              length nodes' = length nodes + 1) as Hbase.
  { intros nodes h nodes' h' Hrun.
    destruct (pairNodes t hs a b h) as [[[n|e] h1]|] eqn:Hpair; simpl in Hrun;
      [|done|done].
    destruct (len =? 2); [done|]. injection Hrun as <- <-.
    destruct (pairNodes_inv _ _ _ _ _ _ _ Hpair)
      as (na & nb & Ha & Hb & -> & Hlen & Hnew & Hold).
    pose proof (Hold _ _ Ha) as Ha'. pose proof (Hold _ _ Hb) as Hb'.
    rewrite decide_True in Ha' by auto. rewrite decide_True in Hb' by auto.
    eexists (length h), _, _, _. rewrite last_snoc.
    split; [done|]. split; [done|]. split; [exact Hnew|].
    split; [done|]. split; [done|]. split; [done|].
    split; [exact Ha'|]. split; [by destruct na|].
    split; [exact Hb'|]. split; [by destruct nb|].
    split; [by destruct na, nb|]. split; [lia|].
    rewrite length_app. simpl. lia. }
  induction pre as [|x|x y pre IH] using list_pair_ind;
    intros nodes h nodes' h' Heven Hrun.
  - destruct Hcur as [[-> ->] | ->]; simpl in Hrun; by apply Hbase in Hrun.
  - done.
  - simpl in Hrun.
    destruct (pairNodes t hs x y h) as [[[n1|e] h1]|] eqn:Hpair; simpl in Hrun;
      [|done|done].
    destruct (len =? 2); [done|].
    destruct (pairNodes_inv _ _ _ _ _ _ _ Hpair) as (_ & _ & _ & _ & _ & Hlen1 & _).
    destruct (IH _ _ _ _ Heven Hrun)
      as (n & nn & na & nb & H1 & H2 & H3 & H4 & H5 & H6 & H7 & H8 & H9 & H10
          & H11 & H12 & H13).
    exists n, nn, na, nb. repeat (split; [done|]).
    rewrite length_app in H13. simpl in *. split; lia.
Qed.

(** The parent given to the last two nodes of an even level is the one
    they have when [buildIntermediate] returns. *)
Lemma buildIntermediate_last_pair t hs base fuel pre a b h ds start :
  (forall data, Write hs data = None) ->
  Nat.even (length pre) = true ->
  length (pre ++ [a; b]) <= fuel ->
  base <= start -> start <= length h ->
  (forall q, q ∈ pre ++ [a; b] -> q < start) ->
  hashesOf h (pre ++ [a; b]) ds ->
  region_inv (Sum hs) base h (pre ++ [a; b]) ->
  exists root h' n nn na nb,
    buildIntermediate fuel (pre ++ [a; b]) t hs h = Some ((Some root, None), h') /\
    h' !! n = Some nn /\ Left nn = Some a /\ Right nn = Some b /\
    h' !! a = Some na /\ Parent na = Some n /\
    h' !! b = Some nb /\ Parent nb = Some n.
Proof.
  intros Hwrite Heven Hfuel Hbase Hst Hnl Hds Hinv.
  assert (2 <= length (pre ++ [a; b])) as H2 by (rewrite length_app; simpl; lia).
  destruct (buildIntermediate_ok t hs base Hwrite fuel _ h ds start
              H2 Hfuel Hbase Hst Hnl Hds Hinv)
    as (root & nroot & h' & Hbuild & Hext & _).
  exists root, h'. pose proof Hbuild as Hbuild0.
  destruct fuel as [|fuel]; [done|].
  assert (a < start /\ b < start) as [Ha Hb] by (split; apply Hnl; el).
  destruct (decide (length (pre ++ [a; b]) = 2)) as [Htwo | Hne].
  - assert (pre = []) as -> by (destruct pre; [done | rewrite length_app in Htwo; simpl in Htwo; lia]).
    simpl in Hbuild.
    destruct (pairNodes t hs a b h) as [[[n|e] h1]|] eqn:Hpair; simpl in Hbuild;
      [|done|done].
    injection Hbuild as <- <-.
    destruct (pairNodes_inv _ _ _ _ _ _ _ Hpair)
      as (na & nb & Hna & Hnb & -> & Hlen & Hnew & Hold).
    pose proof (Hold _ _ Hna) as Ha'. pose proof (Hold _ _ Hnb) as Hb'.
    rewrite decide_True in Ha' by auto. rewrite decide_True in Hb' by auto.
    eexists (length h), _, _, _. split; [exact Hbuild0|]. split; [exact Hnew|].
    split; [done|]. split; [done|]. split; [exact Ha'|].
    split; [by destruct na|]. split; [exact Hb'|]. by destruct nb.
  - destruct (pairLoop_ok t hs base Hwrite (length (pre ++ [a; b])) start Hne Hbase
                (pre ++ [a; b]) [] h ds [])
      as (nodes' & h1 & Hloop & Hext1 & Hsame1 & Hds' & Hfr & Hinv1); try done.
    { constructor. }
    { intros q Hq. by apply elem_of_nil in Hq. }
    { by rewrite app_nil_r. }
    simpl in Hbuild. rewrite Hloop in Hbuild.
    destruct (pairLoop_last t hs _ a b [a; b] (or_intror eq_refl)
                pre [] h nodes' h1 Heven Hloop)
      as (n & nn & na & nb & Hlast & _ & Hn & HL & HR & _ & Hna & HPa & Hnb & HPb & _).
    simpl in Hds'. pose proof (Forall2_length _ _ _ Hds') as Hlen'.
    pose proof (Forall2_length _ _ _ Hds) as Hlen.
    destruct (length_pairHashes_lt (Sum hs) ds ltac:(lia)) as [Hge Hlt].
    pose proof (ext_length _ _ Hext1) as Hle.
    destruct (buildIntermediate_ok t hs base Hwrite fuel nodes' h1
                (pairHashes (Sum hs) ds) (length h1))
      as (root' & nroot' & h'' & Hbuild' & Hext' & Hsame' & _); try done; try lia.
    { intros q Hq. destruct (Hfr _ Hq) as (_ & nq & Hnq & _).
      by eapply lookup_lt_Some. }
    rewrite Hbuild in Hbuild'. injection Hbuild' as <- <-.
    assert (forall q, q < start -> q ∉ nodes') as Hnotin.
    { intros q Hq Hin. destruct (Hfr _ Hin) as (? & _). lia. }
    destruct (Hext' _ _ Hn) as (nn' & Hn' & E). apply same_fields in E.
    destruct E as (EL & ER & _).
    exists n, nn', na, nb. split; [exact Hbuild0|]. split; [done|].
    split; [congruence|]. split; [congruence|].
    split; [rewrite Hsame'; [done | lia | by apply Hnotin]|]. split; [done|].
    split; [rewrite Hsame'; [done | lia | by apply Hnotin]|]. done.
Qed.

Lemma leaf_hashes t (cs : list T) :
  map Hash (padNodes t (map (leafNode t) cs)) =
  padHashes (map (fun c => fst (CalculateHash c)) cs).
Proof. rewrite padNodes_hashes, map_map. done. Qed.

Lemma leaf_count t (cs : list T) :
  length (padNodes t (map (leafNode t) cs)) =
  length (padHashes (map (fun c => fst (CalculateHash c)) cs)).
Proof. by rewrite <- (leaf_hashes t), length_map. Qed.

Lemma padNodes_odd t (lns : list (Node T)) nd :
  length lns mod 2 = 1 -> last lns = Some nd ->
  padNodes t lns = lns ++ [dupNode t nd].
Proof.
  intros Hodd Hlast. unfold padNodes. rewrite Hodd, Hlast. done.
Qed.

(** The duplicate leaf of an odd-length list in the arena after the
    build. *)
Lemma built_dup_leaf cs st m st' clast :
  NewTree cs st = Some ((Some m, None), st') ->
  length cs mod 2 = 1 -> last cs = Some clast ->
  exists nb,
    length (Leafs m) = S (length cs) /\
    Leafs m !! length cs = Some (length (nodes st) + length cs) /\
    nodes st' !! (length (nodes st) + length cs) = Some nb /\
    dup nb = true /\ leaf nb = true /\
    Hash nb = fst (CalculateHash clast) /\ C nb = Some clast.
Proof.
  intros Hnew Hodd Hlast.
  destruct (NewTree_success _ _ _ _ Hnew)
    as (root & nroot & _ & _ & -> & _ & Hext & _).
  assert (padNodes (trees st) (map (leafNode (trees st)) cs) =
          map (leafNode (trees st)) cs
            ++ [dupNode (trees st) (leafNode (trees st) clast)]) as Hpad.
  { apply padNodes_odd; [by rewrite length_map|].
    by rewrite last_map, Hlast. }
  rewrite Hpad in Hext |- *. cbn [Leafs].
  rewrite length_seq, length_app, length_map, Nat.add_1_r.
  destruct (Hext (length (nodes st) + length cs)
                 (dupNode (trees st) (leafNode (trees st) clast)))
    as (nb & Hnb & E).
  { rewrite lookup_app_r by lia.
    replace (length (nodes st) + length cs - length (nodes st))
      with (length cs) by lia.
    rewrite lookup_app_r by (rewrite length_map; lia).
    by rewrite length_map, Nat.sub_diag. }
  apply same_fields in E. destruct E as (_ & _ & Elf & Edup & EH & EC & _).
  exists nb. split; [done|]. split; [apply lookup_seq; lia|].
  by repeat split.
Qed.


Lemma buildWithContent_unfold t hs h0 cs :
  cs <> [] -> digests_ok cs ->
  buildWithContent cs t hs h0 =
    match buildIntermediate (length (padNodes t (map (leafNode t) cs)))
            (seq (length h0) (length (padNodes t (map (leafNode t) cs))))
            t hs (h0 ++ padNodes t (map (leafNode t) cs)) with
    | None => None
    | Some ((_, Some err), h3) => Some ((None, [], Some err), h3)
    | Some ((root, None), h3) =>
        Some ((root, seq (length h0) (length (padNodes t (map (leafNode t) cs))),
               None), h3)
    end.
Proof.
  intros Hne Hok. unfold buildWithContent.
  rewrite (leafLoop_ok t cs Hok). simpl.
  replace (length cs =? 0) with false by (destruct cs; done).
  replace (length cs) with (length (map (leafNode t) cs)) by apply length_map.
  assert (map (leafNode t) cs <> []) as Hne' by (destruct cs; done).
  rewrite (padLeafs_ok t h0 _ Hne'). by rewrite length_seq.
Qed.

Lemma even_pred_of_odd k : S k mod 2 = 1 -> Nat.even k = true.
Proof.
  intros Hodd. destruct (Nat.even k) eqn:Hev; [done|]. exfalso.
  assert (Nat.odd k = true) as Hk by (unfold Nat.odd; by rewrite Hev).
  apply Nat.odd_spec in Hk as [j ->].
  replace (S (2 * j + 1)) with ((j + 1) * 2) in Hodd by lia.
  rewrite Nat.Div0.mod_mul in Hodd. done.
Qed.

(** In a tree built from an odd-length list, the duplicate leaf is the
    right child of its parent and the last real leaf is the left one. *)
Lemma dup_leaf_parent cs st m st' :
  NewTree cs st = Some ((Some m, None), st') ->
  length cs mod 2 = 1 ->
  exists n nn na nb,
    nodes st' !! n = Some nn /\
    Left nn = Some (length (nodes st) + (length cs - 1)) /\
    Right nn = Some (length (nodes st) + length cs) /\
    nodes st' !! (length (nodes st) + (length cs - 1)) = Some na /\
    Parent na = Some n /\
    nodes st' !! (length (nodes st) + length cs) = Some nb /\
    Parent nb = Some n.
Proof.
  intros Hnew Hodd. destruct (NewTree_inv _ _ _ _ Hnew) as [Hne Hok].
  destruct (last cs) as [clast|] eqn:Hlast; [|by apply last_None in Hlast].
  assert (padNodes (trees st) (map (leafNode (trees st)) cs) =
          map (leafNode (trees st)) cs
            ++ [dupNode (trees st) (leafNode (trees st) clast)]) as Hpad.
  { apply padNodes_odd; [by rewrite length_map|].
    by rewrite last_map, Hlast. }
  set (lns := padNodes (trees st) (map (leafNode (trees st)) cs)) in *.
  assert (0 < length cs) as Hpos by (destruct cs; [done | simpl; lia]).
  assert (length lns = pred (length cs) + 2) as Hlen.
  { rewrite Hpad, length_app, length_map. simpl. lia. }
  assert (Forall (fun nd => leaf nd = true /\ Parent nd = None) lns) as Hleafs.
  { apply padNodes_leaf. apply Forall_forall. intros nd Hnd.
    apply list_elem_of_In, in_map_iff in Hnd as (c & <- & _). done. }
  assert (seq (length (nodes st)) (length lns) =
          seq (length (nodes st)) (pred (length cs))
            ++ [length (nodes st) + pred (length cs);
                S (length (nodes st) + pred (length cs))]) as Hseq.
  { rewrite Hlen, seq_app. done. }
  destruct (buildIntermediate_last_pair (trees st) md5_New (length (nodes st))
              (length lns) (seq (length (nodes st)) (pred (length cs)))
              (length (nodes st) + pred (length cs))
              (S (length (nodes st) + pred (length cs)))
              (nodes st ++ lns) (map Hash lns)
              (length (nodes st) + length lns))
    as (root & h' & n & nn & na & nb & Hbuild & Hfacts).
  - done.
  - rewrite length_seq. apply even_pred_of_odd.
    by replace (S (pred (length cs))) with (length cs) by lia.
  - rewrite <- Hseq, length_seq. done.
  - lia.
  - rewrite length_app. lia.
  - rewrite <- Hseq. intros q Hq. apply elem_of_seq in Hq. lia.
  - rewrite <- Hseq. apply leaves_hashesOf.
  - rewrite <- Hseq. by apply leaves_region_inv.
  - exists n, nn, na, nb.
    unfold NewTree in Hnew.
    rewrite (buildWithContent_unfold _ _ _ _ Hne Hok) in Hnew.
    fold lns in Hnew. rewrite Hseq, Hbuild in Hnew.
    destruct (h' !! root); [|done]. injection Hnew as <- <-.
    replace (length cs - 1) with (pred (length cs)) by lia.
    replace (length (nodes st) + length cs)
      with (S (length (nodes st) + pred (length cs))) by lia.
    exact Hfacts.
Qed.

(** *** Order sensitivity of the root *)

Section Injective.

Variable digest : list byte -> list byte.

(** No two inputs of one length have the same digest, and the length of
    a digest depends on the length of the input only. *)
Hypothesis Hinj : forall x y, length x = length y -> digest x = digest y -> x = y.
Hypothesis Hlen : forall x y, length x = length y -> length (digest x) = length (digest y).






End Injective.


(** ** The claims *)



(** C4. For a content list of odd length [n] whose digest computations
    succeed, [NewTree] returns a tree with [n+1] leaves; the last two
    leaves carry the same digest, the last one is flagged as duplicate
    (the one before is not), and it holds the content of the last real
    leaf while being another node of the arena. *)
Theorem odd_count_padding cs st :
  length cs mod 2 = 1 -> digests_ok cs ->
  exists m st' p1 p2 nd1 nd2 clast,
    NewTree cs st = Some ((Some m, None), st') /\
    length (Leafs m) = S (length cs) /\
    last cs = Some clast /\
    Leafs m !! (length cs - 1) = Some p1 /\ Leafs m !! (length cs) = Some p2 /\
    p1 <> p2 /\
    nodes st' !! p1 = Some nd1 /\ nodes st' !! p2 = Some nd2 /\
    Hash nd2 = Hash nd1 /\ dup nd2 = true /\ dup nd1 = false /\
    leaf nd2 = true /\ leaf nd1 = true /\
    C nd2 = C nd1 /\ C nd1 = Some clast.
Proof.
  intros Hodd Hok.
  assert (cs <> []) as Hne by (intros ->; done).
  destruct (NewTree_ok cs st Hne Hok) as (root & nroot & h' & Hnew & _).
  destruct (last cs) as [clast|] eqn:Hlast; [|by apply last_None in Hlast].
  assert (0 < length cs) as Hpos by (destruct cs; [done | simpl; lia]).
  assert (cs !! (length cs - 1) = Some clast) as Hi.
  { rewrite last_lookup in Hlast.
    by replace (length cs - 1) with (pred (length cs)) by lia. }
  destruct (built_leaf _ _ _ _ _ _ Hnew Hi)
    as (nd1 & HL1 & Hn1 & HC1 & HH1 & Hlf1 & Hdup1).
  destruct (built_dup_leaf _ _ _ _ _ Hnew Hodd Hlast)
    as (nd2 & Hlen & HL2 & Hn2 & Hdup2 & Hlf2 & HH2 & HC2).
  eexists _, _, _, _, nd1, nd2, clast.
  split; [exact Hnew|]. split; [exact Hlen|]. split; [done|].
  split; [exact HL1|]. split; [exact HL2|]. split; [lia|].
  split; [exact Hn1|]. split; [exact Hn2|].
  repeat split; congruence.
Qed.

(** C5. [NewTree] on an empty list fails with the construction error;
    a failing digest computation is returned as it is; and whenever
    [NewTree] returns, it returns either a tree and no error or an error
    and no tree. *)
Theorem build_failure_returns_no_tree :
  (forall st : store T,
     NewTree [] st =
       Some ((None,
              Some (errors_New "error: cannot construct tree with no content")),
             mkStore (nodes st) (S (trees st)))) /\
  (forall pre c post x e (st : store T),
     digests_ok pre -> CalculateHash c = (x, Some e) ->
     exists st', NewTree (pre ++ c :: post) st = Some ((None, Some e), st')) /\
  (forall cs (st : store T) res err st',
     NewTree cs st = Some ((res, err), st') ->
     (res = None /\ err <> None) \/ (res <> None /\ err = None)).
Proof.
  split; [done|]. split.
  - intros pre c post x e st Hpre Hc. unfold NewTree.
    rewrite (buildWithContent_error _ _ _ pre c post x e Hpre Hc). eauto.
  - intros cs st res err st'. unfold NewTree.
    destruct (buildWithContent cs (trees st) md5_New (nodes st))
      as [[[[[root|] leafs] [e|]] h']|]; try done.
    + intros [= <- <- <-]. left. done.
    + destruct (h' !! root); [|done]. intros [= <- <- <-]. right. done.
    + intros [= <- <- <-]. left. done.
Qed.

(** C6. When every leaf's equality test against the target succeeds
    and answers false, [GetMerklePath] returns empty lists and no error.
    When instead the first test that does not answer a plain false
    fails with an error, that error is returned: the two outcomes
    differ. *)
Theorem absent_content_is_not_an_error (m : MerkleTree) content h :
  Forall (fun q => exists nq cq, h !! q = Some nq /\ C nq = Some cq /\
                                 Equals cq content = (false, None)) (Leafs m) ->
  GetMerklePath m content h = Some ([], [], None) /\
  forall target pre q post nq cq b e,
    Leafs m = pre ++ q :: post ->
    Forall (fun q => exists nq cq, h !! q = Some nq /\ C nq = Some cq /\
                                   Equals cq target = (false, None)) pre ->
    h !! q = Some nq -> C nq = Some cq -> Equals cq target = (b, Some e) ->
    GetMerklePath m target h = Some ([], [], Some e) /\
    GetMerklePath m target h <> GetMerklePath m content h.
Proof.
  intros Habsent.
  assert (GetMerklePath m content h = Some ([], [], None)) as Hnone
    by by apply scanLeafs_absent.
  split; [done|].
  intros target pre q post nq cq b e HL Hpre Hq HC He.
  assert (GetMerklePath m target h = Some ([], [], Some e)) as Herr.
  { unfold GetMerklePath. rewrite HL. by eapply scanLeafs_error. }
  split; [done|]. rewrite Herr, Hnone. done.
Qed.






End Proofs.

(** ** The claims on concrete inputs *)



Lemma odd_count_padding_witness :
  length Demo.abc_list mod 2 = 1 /\ digests_ok Demo.abc_list /\
  exists m st' p1 p2 nd1 nd2 clast,
    NewTree Demo.abc_list Demo.empty = Some ((Some m, None), st') /\
    length (Leafs m) = S (length Demo.abc_list) /\
    last Demo.abc_list = Some clast /\
    Leafs m !! (length Demo.abc_list - 1) = Some p1 /\
    Leafs m !! (length Demo.abc_list) = Some p2 /\
    p1 <> p2 /\
    nodes st' !! p1 = Some nd1 /\ nodes st' !! p2 = Some nd2 /\
    Hash nd2 = Hash nd1 /\ dup nd2 = true /\ dup nd1 = false /\
    leaf nd2 = true /\ leaf nd1 = true /\
    C nd2 = C nd1 /\ C nd1 = Some clast.
Proof.
  split; [reflexivity|]. split; [repeat constructor|].
  apply (odd_count_padding Demo.abc_list Demo.empty);
    [reflexivity | repeat constructor].
Defined.

Lemma build_failure_returns_no_tree_witness :
  digests_ok [Some "A"%string] /\
  CalculateHash (None : option string) = ([], Some Faulty.no_data) /\
  exists st',
    NewTree ([Some "A"%string] ++ None :: [Some "B"%string]) Faulty.empty
      = Some ((None, Some Faulty.no_data), st').
Proof.
  split; [repeat constructor|]. split; [reflexivity|].
  apply (proj1 (proj2 (@build_failure_returns_no_tree (option string) _))
           [Some "A"%string] None [Some "B"%string] [] Faulty.no_data Faulty.empty).
  - repeat constructor.
  - reflexivity.
Defined.

Lemma absent_content_is_not_an_error_witness :
  exists m st',
    NewTree Demo.main_list Demo.empty = Some ((Some m, None), st') /\
    Forall (fun q => exists nq cq,
              nodes st' !! q = Some nq /\ C nq = Some cq /\
              Equals cq (Demo.mkTestContent "Nope") = (false, None)) (Leafs m) /\
    GetMerklePath m (Demo.mkTestContent "Nope") (nodes st') = Some ([], [], None).
Proof.
  eexists _, _. split; [eval_build|].
  assert (forall P Q : Prop, P -> (P -> Q) -> P /\ Q) as Hcut by tauto.
  apply Hcut.
  - repeat (constructor;
            [eexists _, _; split; [reflexivity|]; split; reflexivity|]).
    constructor.
  - intros Habsent.
    apply (absent_content_is_not_an_error _ (Demo.mkTestContent "Nope") _ Habsent).
Defined.








(** ** The scenarios of the demo program *)

(** The list of [main]: four leaves, seven nodes, and the path of "Hey"
    made of the digest of "Gao" (to the right) and of the digest of the
    first pair (to the left). *)
Example main_scenario :
  exists m st',
    NewTree Demo.main_list Demo.empty = Some ((Some m, None), st') /\
    Leafs m = [0; 1; 2; 3] /\ Root m = Some 6 /\ length (nodes st') = 7 /\
    map MD5.Z_of_byte (MerkleRoot m) =
      [73; 98; 247; 206; 48; 59; 201; 237; 151; 26; 249; 90; 4; 186; 159; 102]%Z /\
    GetMerklePath m (Demo.mkTestContent "Hey") (nodes st') =
      Some ([ MD5.Sum (bytes_of_string "Gao");
              MD5.Sum (MD5.Sum (bytes_of_string "Hello")
                         ++ MD5.Sum (bytes_of_string "World")) ],
            [1; 0]%Z, None).
Proof.
  eexists _, _. split; [eval_build|].
  split; [reflexivity|]. split; [reflexivity|]. split; [reflexivity|].
  split; vm_compute; reflexivity.
Qed.

(** Three items: the leaf list is padded to four, the fourth leaf is the
    duplicate of the third. *)
Example abc_scenario :
  exists m st' nd2 nd3,
    NewTree Demo.abc_list Demo.empty = Some ((Some m, None), st') /\
    Leafs m = [0; 1; 2; 3] /\
    nodes st' !! 2 = Some nd2 /\ nodes st' !! 3 = Some nd3 /\
    dup nd2 = false /\ dup nd3 = true /\ Hash nd3 = Hash nd2 /\
    C nd3 = Some (Demo.mkTestContent "C").
Proof.
  eexists _, _, _, _. split; [eval_build|].
  split; [reflexivity|]. split; [reflexivity|]. split; [reflexivity|].
  by repeat split.
Qed.

(** * Further properties of the builder and of the extractor *)

Section Effect.

Context {T : Type} `{Content T}.
Implicit Types (h : heap T) (nd nq : Node T) (p q l r n : ptr).

(** *** What one run of the loop of [buildIntermediate] does *)

Lemma pairNodes_error_inv t hs h l r e h' :
  pairNodes t hs l r h = Some (inr e, h') -> h' = h.
Proof.
  unfold pairNodes, alloc, setParent.
  destruct (h !! l) as [nl|]; [|done]. destruct (h !! r) as [nr|]; [|done].
  destruct (Write hs _); [by intros [= _ ->]|].
  by repeat case_match.
Qed.

Lemma pairLoop_effect t hs len :
  forall rest nodes h nodes' h',
    pairLoop t hs len rest nodes h = Some (Next nodes', h') ->
    (forall q, q ∈ rest -> q < length h) ->
    nodes' = nodes ++ seq (length h) (Nat.div2 (S (length rest))) /\
    length h' = length h + Nat.div2 (S (length rest)) /\
    ext h h' /\
    (forall q nq, h !! q = Some nq -> q ∉ rest -> h' !! q = Some nq) /\
    (forall p, p ∈ rest ->
       exists np n, h' !! p = Some np /\ Parent np = Some n /\
                    length h <= n < length h') /\
    (forall q nq, length h <= q -> h' !! q = Some nq ->
       Tree nq = t /\ Parent nq = None /\ leaf nq = false /\
       dup nq = false /\ C nq = None /\
       exists l r, Left nq = Some l /\ Right nq = Some r /\
                   l ∈ rest /\ r ∈ rest /\
                   (NoDup rest ->
                    exists nl nr, h' !! l = Some nl /\ Parent nl = Some q /\
                                  h' !! r = Some nr /\ Parent nr = Some q)).
Proof.
  induction rest as [|l|l r rest IH] using list_pair_ind;
    intros nodes h nodes' h' Hrun Hvalid.
  - injection Hrun as <- <-. simpl. rewrite app_nil_r, Nat.add_0_r.
    split; [done|]. split; [done|]. split; [apply ext_refl|].
    split; [done|]. split; [by intros p Hp%elem_of_nil|].
    intros q nq Hq Hnq. apply lookup_lt_Some in Hnq. lia.
  - simpl in Hrun.
    destruct (pairNodes t hs l l h) as [[[n|e] h1]|] eqn:Hpair; simpl in Hrun;
      [|done|done].
    destruct (len =? 2); [done|]. injection Hrun as <- <-.
    destruct (pairNodes_inv _ _ _ _ _ _ _ Hpair)
      as (nl & nr & Hl & Hr & -> & Hlen & Hnew & Hold).
    rewrite Hl in Hr. injection Hr as <-.
    pose proof (Hold _ _ Hl) as Hl'. rewrite decide_True in Hl' by auto.
    simpl. split; [done|]. split; [lia|]. split.
    { intros q nq Hq. eexists. split; [by apply Hold|].
      case_decide; [by rewrite withParent_idem | done]. }
    split.
    { intros q nq Hq Hnin. rewrite (Hold _ _ Hq).
      rewrite decide_False; [done|]. intros [-> | ->]; apply Hnin; el. }
    split.
    { intros p Hp%list_elem_of_singleton. subst p.
      eexists _, _. split; [exact Hl'|]. split; [by destruct nl | lia]. }
    intros q nq Hq Hnq.
    assert (q = length h) as -> by (apply lookup_lt_Some in Hnq; lia).
    rewrite Hnew in Hnq. injection Hnq as <-. simpl.
    repeat (split; [done|]). exists l, l.
    split; [done|]. split; [done|]. split; [el|]. split; [el|].
    intros _. eexists _, _. split; [exact Hl'|]. split; [by destruct nl|].
    split; [exact Hl' | by destruct nl].
  - simpl in Hrun.
    destruct (pairNodes t hs l r h) as [[[n|e] h1]|] eqn:Hpair; simpl in Hrun;
      [|done|done].
    destruct (len =? 2); [done|].
    destruct (pairNodes_inv _ _ _ _ _ _ _ Hpair)
      as (nl & nr & Hl & Hr & -> & Hlen & Hnew & Hold).
    pose proof (Hold _ _ Hl) as Hl'. rewrite decide_True in Hl' by auto.
    pose proof (Hold _ _ Hr) as Hr'. rewrite decide_True in Hr' by auto.
    assert (forall q, q ∈ rest -> q < length h) as Hvalid'.
    { intros q Hq. apply Hvalid. el. }
    destruct (IH _ _ _ _ Hrun) as (Hnodes & Hlen' & Hext & Hframe & Hpar & Hint).
    { intros q Hq. specialize (Hvalid' q Hq). lia. }
    assert (ext h h1) as Hext1.
    { intros q nq Hq. eexists. split; [by apply Hold|].
      case_decide; [by rewrite withParent_idem | done]. }
    assert (length h ∉ rest) as Hnin.
    { intros Hin. specialize (Hvalid' _ Hin). lia. }
    rewrite Hlen in *.
    change (Nat.div2 (S (length (l :: r :: rest))))
      with (S (Nat.div2 (S (length rest)))).
    set (k := Nat.div2 (S (length rest))) in *. clearbody k.
    split.
    { rewrite Hnodes, <- app_assoc. done. }
    split; [lia|]. split; [by eapply ext_trans|]. split.
    { intros q nq Hq Hqn. apply Hframe; [|intros Hin; apply Hqn; el].
      rewrite (Hold _ _ Hq). rewrite decide_False; [done|].
      intros [-> | ->]; apply Hqn; el. }
    split.
    { intros p Hp. destruct (decide (p ∈ rest)) as [Hin | Hnotin].
      - destruct (Hpar p Hin) as (np & n & Hnp & HP & Hn).
        exists np, n. split; [done|]. split; [done|]. lia.
      - assert (p = l \/ p = r) as Hlr.
        { apply elem_of_cons in Hp as [-> | Hp]; [by left|].
          apply elem_of_cons in Hp as [-> | Hp]; [by right | done]. }
        destruct Hlr as [-> | ->].
        + eexists _, (length h). split; [by apply Hframe|].
          split; [by destruct nl | lia].
        + eexists _, (length h). split; [by apply Hframe|].
          split; [by destruct nr | lia]. }
    intros q nq Hq Hnq. destruct (decide (q = length h)) as [-> | Hne].
    + rewrite (Hframe _ _ Hnew Hnin) in Hnq. injection Hnq as <-. simpl.
      repeat (split; [done|]). exists l, r.
      split; [done|]. split; [done|]. split; [el|]. split; [el|].
      intros Hnd. apply NoDup_cons in Hnd as [Hl1 Hnd].
      apply NoDup_cons in Hnd as [Hr1 Hnd].
      eexists _, _. split; [apply Hframe; [exact Hl' | intros Hin; apply Hl1; el]|].
      split; [by destruct nl|].
      split; [by apply Hframe | by destruct nr].
    + destruct (Hint q nq ltac:(lia) Hnq)
        as (H1 & H2 & H3 & H4 & H5 & l' & r' & HL & HR & Hl'' & Hr'' & Hch).
      repeat (split; [done|]). exists l', r'.
      split; [done|]. split; [done|]. split; [el|]. split; [el|].
      intros Hnd. apply NoDup_cons in Hnd as [_ Hnd].
      apply NoDup_cons in Hnd as [_ Hnd]. by apply Hch.
Qed.

Lemma pairLoop_no_return t hs len :
  (len =? 2) = false ->
  forall rest nodes h n h',
    pairLoop t hs len rest nodes h <> Some (Return (Some n) None, h').
Proof.
  intros Hlen rest.
  induction rest as [|l|l r rest IH] using list_pair_ind;
    intros nodes h n h' Hrun; simpl in Hrun.
  - done.
  - destruct (pairNodes t hs l l h) as [[[n1|e] h1]|]; simpl in Hrun; [|done|done].
    by rewrite Hlen in Hrun.
  - destruct (pairNodes t hs l r h) as [[[n1|e] h1]|]; simpl in Hrun; [|done|done].
    rewrite Hlen in Hrun. by eapply IH.
Qed.

Lemma pairLoop_return t hs (nl : list nat) h n h' :
  pairLoop t hs (length nl) nl [] h = Some (Return (Some n) None, h') ->
  exists l r, nl = [l; r] /\ pairNodes t hs l r h = Some (inl n, h').
Proof.
  intros Hrun. destruct nl as [|l [|r rest]]; simpl in Hrun.
  - done.
  - destruct (pairNodes t hs l l h) as [[[n1|e] h1]|]; simpl in Hrun; done.
  - destruct (pairNodes t hs l r h) as [[[n1|e] h1]|] eqn:Hpair; simpl in Hrun;
      [|done|done].
    destruct rest as [|x rest].
    + injection Hrun as <- <-. eauto.
    + exfalso. change (length (x :: rest) =? 0) with false in Hrun.
      eapply (pairLoop_no_return t hs (S (S (length (x :: rest)))));
        [reflexivity | exact Hrun].
Qed.

Lemma pairLoop_next_len t hs len rest nodes h nodes' h' :
  pairLoop t hs len rest nodes h = Some (Next nodes', h') ->
  rest <> [] -> (len =? 2) = false.
Proof.
  intros Hrun Hne. destruct rest as [|l [|r rest]]; [done| |]; simpl in Hrun.
  - destruct (pairNodes t hs l l h) as [[[n1|e] h1]|]; simpl in Hrun; [|done|done].
    by destruct (len =? 2).
  - destruct (pairNodes t hs l r h) as [[[n1|e] h1]|]; simpl in Hrun; [|done|done].
    by destruct (len =? 2).
Qed.

(** *** What [buildIntermediate] does *)

(** Above a level [nl] of distinct nodes, a returning
    [buildIntermediate] allocates [internalCount] nodes, all internal;
    every node of [nl] is [levels] parent links below the root; parent
    and child links agree; nodes outside [nl] are untouched. *)
Lemma buildIntermediate_effect t hs fuel :
  forall (nl : list nat) h root h',
    buildIntermediate fuel nl t hs h = Some ((Some root, None), h') ->
    (forall q, q ∈ nl -> q < length h) -> NoDup nl ->
    length h' = length h + internalCount fuel (length nl) /\
    length h <= root < length h' /\
    ext h h' /\
    (forall q nq, h !! q = Some nq -> q ∉ nl -> h' !! q = Some nq) /\
    (forall p, p ∈ nl -> reaches h' root p (levels fuel (length nl))) /\
    (forall q nq, length h <= q -> h' !! q = Some nq ->
       Tree nq = t /\ leaf nq = false /\ dup nq = false /\ C nq = None /\
       (Parent nq = None <-> q = root) /\
       (exists k, reaches h' root q k) /\
       exists l r ndl ndr,
         Left nq = Some l /\ Right nq = Some r /\ l < q /\ r < q /\
         (l ∈ nl \/ length h <= l) /\ (r ∈ nl \/ length h <= r) /\
         h' !! l = Some ndl /\ Parent ndl = Some q /\
         h' !! r = Some ndr /\ Parent ndr = Some q).
Proof.
  induction fuel as [|fuel IH]; intros nl h root h' Hbuild Hvalid Hnd; [done|].
  simpl in Hbuild.
  destruct (pairLoop t hs (length nl) nl [] h) as [[[nodes'|n err] h1]|] eqn:Hloop;
    [| |done].
  - (* the loop ran to its end *)
    destruct nl as [|x0 nl0] eqn:Hnl.
    { injection Hloop as <- <-. by rewrite buildIntermediate_empty_level in Hbuild. }
    rewrite <- Hnl in *. assert (nl <> []) as Hne by (by rewrite Hnl).
    pose proof (pairLoop_next_len _ _ _ _ _ _ _ _ Hloop Hne) as Hlen2.
    destruct (pairLoop_effect _ _ _ _ _ _ _ _ Hloop Hvalid)
      as (Hnodes & Hlen1 & Hext1 & Hframe1 & Hpar1 & Hint1).
    cbn [app] in Hnodes.
    set (k := Nat.div2 (S (length nl))) in *.
    assert (levels (S fuel) (length nl) = S (levels fuel k)) as Hlev
      by (simpl; by rewrite Hlen2).
    assert (internalCount (S fuel) (length nl) = k + internalCount fuel k) as Hic
      by (simpl; by rewrite Hlen2).
    rewrite Hlev, Hic. clear Hlev Hic Hnl. clearbody k.
    assert (length nodes' = k) as Hk by (by rewrite Hnodes, length_seq).
    assert (forall q, q ∈ nodes' <-> length h <= q < length h1) as Hin.
    { intros q. rewrite Hnodes, elem_of_seq. lia. }
    destruct (IH nodes' h1 root h' Hbuild) as (Hcnt & Hroot & Hext & Hframe & Hreach & Hint).
    { intros q Hq. apply Hin in Hq. lia. }
    { rewrite Hnodes. apply NoDup_seq. }
    rewrite Hk in *.
    split; [lia|]. split; [lia|]. split; [by eapply ext_trans|]. split.
    { intros q nq Hq Hnin. apply Hframe; [by apply Hframe1|].
      intros Hq'%Hin. apply lookup_lt_Some in Hq. lia. }
    split.
    { intros p Hp. destruct (Hpar1 p Hp) as (np & n & Hnp & HP & Hn).
      eapply reaches_step; [|exact HP|apply Hreach; by apply Hin].
      apply Hframe; [done|]. intros Hp'%Hin. specialize (Hvalid p Hp). lia. }
    intros q nq Hq Hnq. destruct (decide (q < length h1)) as [Hlt | Hge].
    + assert (q ∈ nodes') as Hqin by (apply Hin; lia).
      destruct (lookup_lt_is_Some_2 h1 q Hlt) as [nq1 Hnq1].
      destruct (Hint1 q nq1 Hq Hnq1)
        as (HT & _ & Hlf & Hdup & HC & l & r & HL & HR & Hl & Hr & Hch).
      destruct (Hch Hnd) as (nl' & nr' & Hl' & HPl & Hr' & HPr).
      destruct (Hext _ _ Hnq1) as (nq' & Hnq' & E). rewrite Hnq in Hnq'.
      injection Hnq' as <-. apply same_fields in E.
      destruct E as (EL & ER & Elf & Edup & EH & EC & ET).
      pose proof (Hreach q Hqin) as Hrq.
      split; [congruence|]. split; [congruence|]. split; [congruence|].
      split; [congruence|]. split.
      { split.
        - intros HP. inversion Hrq as [nroot Hr0 HP0 Heq | ? np q' k' Hp0 HP0 Hr0];
            [done|]. rewrite Hnq in Hp0. injection Hp0 as <-. congruence.
        - intros ->. lia. }
      split; [eauto|].
      pose proof (Hvalid l Hl) as Hlv. pose proof (Hvalid r Hr) as Hrv.
      exists l, r, nl', nr'. split; [congruence|]. split; [congruence|].
      split; [lia|]. split; [lia|]. split; [by left|]. split; [by left|].
      split; [apply Hframe; [done | intros Hx%Hin; lia]|]. split; [done|].
      split; [apply Hframe; [done | intros Hx%Hin; lia]|]. done.
    + destruct (Hint q nq ltac:(lia) Hnq)
        as (HT & Hlf & Hdup & HC & Hiff & Hrq & l & r & nl' & nr' & HL & HR & Hlq
            & Hrq' & Hlr & Hrr & Hch).
      repeat (split; [done|]). exists l, r, nl', nr'.
      split; [done|]. split; [done|]. split; [done|]. split; [done|].
      split; [right; destruct Hlr as [Hx%Hin|]; lia|].
      split; [right; destruct Hrr as [Hx%Hin|]; lia|]. done.
  - (* a level of two nodes: the root *)
    injection Hbuild as -> -> <-.
    destruct (pairLoop_return _ _ _ _ _ _ Hloop) as (l & r & -> & Hpair).
    destruct (pairNodes_inv _ _ _ _ _ _ _ Hpair)
      as (nl' & nr' & Hl & Hr & -> & Hlen & Hnew & Hold).
    pose proof (Hold _ _ Hl) as Hl'. rewrite decide_True in Hl' by auto.
    pose proof (Hold _ _ Hr) as Hr'. rewrite decide_True in Hr' by auto.
    assert (reaches h1 (length h) (length h) 0) as Hroot
      by (by eapply reaches_root).
    simpl. split; [lia|]. split; [lia|]. split.
    { intros q nq Hq. eexists. split; [by apply Hold|].
      case_decide; [by rewrite withParent_idem | done]. }
    split.
    { intros q nq Hq Hnin. rewrite (Hold _ _ Hq).
      rewrite decide_False; [done|]. intros [-> | ->]; apply Hnin; el. }
    split.
    { intros p Hp.
      assert (p = l \/ p = r) as [-> | ->].
      { apply elem_of_cons in Hp as [-> | Hp]; [by left|].
        apply list_elem_of_singleton in Hp as ->. by right. }
      - eapply reaches_step; [exact Hl' | by destruct nl' | done].
      - eapply reaches_step; [exact Hr' | by destruct nr' | done]. }
    intros q nq Hq Hnq.
    assert (q = length h) as -> by (apply lookup_lt_Some in Hnq; lia).
    rewrite Hnew in Hnq. injection Hnq as <-. simpl.
    repeat (split; [done|]). split; [eauto|].
    apply lookup_lt_Some in Hl. apply lookup_lt_Some in Hr.
    eexists l, r, _, _.
    split; [done|]. split; [done|]. split; [done|]. split; [done|].
    split; [left; el|]. split; [left; el|].
    split; [exact Hl'|]. split; [by destruct nl'|].
    split; [exact Hr' | by destruct nr'].
Qed.

End Effect.

Section Structure.

Context {T : Type} `{Content T}.
Implicit Types (h : heap T) (nd nq : Node T) (p q l r n : ptr).

Lemma NewTree_build cs st m st' :
  NewTree cs st = Some ((Some m, None), st') ->
  exists root nroot,
    cs <> [] /\ digests_ok cs /\
    m = mkTree (Some root) (Hash nroot)
          (seq (length (nodes st))
               (length (padNodes (trees st) (map (leafNode (trees st)) cs))))
          md5_New /\
    nodes st' !! root = Some nroot /\
    buildIntermediate (length (padNodes (trees st) (map (leafNode (trees st)) cs)))
      (seq (length (nodes st))
           (length (padNodes (trees st) (map (leafNode (trees st)) cs))))
      (trees st) md5_New
      (nodes st ++ padNodes (trees st) (map (leafNode (trees st)) cs))
    = Some ((Some root, None), nodes st').
Proof.
  intros Hnew. destruct (NewTree_inv _ _ _ _ Hnew) as [Hne Hok].
  unfold NewTree in Hnew.
  rewrite (buildWithContent_unfold _ _ _ _ Hne Hok) in Hnew.
  destruct (buildIntermediate _ _ _ _ _) as [[[[root|] [e|]] h']|]; try done.
  destruct (h' !! root) as [nroot|] eqn:Hroot; [|done].
  injection Hnew as <- <-. exists root, nroot. by repeat split.
Qed.

Lemma padNodes_count t (lns : list (Node T)) :
  length (padNodes t lns) = length lns + length lns mod 2.
Proof.
  unfold padNodes. destruct (length lns mod 2 =? 1) eqn:Hodd.
  - apply Nat.eqb_eq in Hodd. rewrite Hodd.
    destruct (last lns) eqn:Hlast; [by rewrite length_app|].
    apply last_None in Hlast. by subst.
  - apply Nat.eqb_neq in Hodd.
    pose proof (Nat.mod_upper_bound (length lns) 2). lia.
Qed.

Lemma padNodes_all t (lns : list (Node T)) (P : Node T -> Prop) :
  Forall P lns -> (forall nd, nd ∈ lns -> P (dupNode t nd)) ->
  Forall P (padNodes t lns).
Proof.
  intros Hl Hd. unfold padNodes. destruct (_ =? _); [|done].
  destruct (last lns) as [nd|] eqn:Hlast; [|done].
  apply Forall_app. split; [done|]. constructor; [|constructor].
  apply Hd. rewrite last_lookup in Hlast. by eapply list_elem_of_lookup_2.
Qed.

(** The arena after a successful [NewTree]: the leaves, then the
    internal nodes. *)
Lemma NewTree_structure cs st m st' :
  NewTree cs st = Some ((Some m, None), st') ->
  exists root,
    Root m = Some root /\
    Leafs m = seq (length (nodes st)) (length cs + length cs mod 2) /\
    length (nodes st') =
      length (nodes st) + (length cs + length cs mod 2)
      + internalCount (length cs + length cs mod 2) (length cs + length cs mod 2) /\
    length (nodes st) + (length cs + length cs mod 2) <= root < length (nodes st') /\
    (forall q nq, nodes st !! q = Some nq -> nodes st' !! q = Some nq) /\
    (forall p, p ∈ Leafs m ->
       reaches (nodes st') root p
         (levels (length cs + length cs mod 2) (length cs + length cs mod 2)) /\
       exists np c, nodes st' !! p = Some np /\ Tree np = trees st /\
         leaf np = true /\ Left np = None /\ Right np = None /\ C np = Some c /\
         c ∈ cs /\ Hash np = fst (CalculateHash c) /\
         (dup np = true -> length cs mod 2 = 1 /\
                           p = length (nodes st) + length cs)) /\
    (forall q nq,
       length (nodes st) + (length cs + length cs mod 2) <= q ->
       nodes st' !! q = Some nq ->
       Tree nq = trees st /\ leaf nq = false /\ dup nq = false /\ C nq = None /\
       (Parent nq = None <-> q = root) /\
       (exists k, reaches (nodes st') root q k) /\
       exists l r ndl ndr,
         Left nq = Some l /\ Right nq = Some r /\
         length (nodes st) <= l < q /\ length (nodes st) <= r < q /\
         nodes st' !! l = Some ndl /\ Parent ndl = Some q /\
         nodes st' !! r = Some ndr /\ Parent ndr = Some q).
Proof.
  intros Hnew.
  destruct (NewTree_build _ _ _ _ Hnew) as (root & nroot & Hne & Hok & -> & Hroot & Hbuild).
  set (t := trees st) in *. set (base := length (nodes st)) in *.
  set (lns := padNodes t (map (leafNode t) cs)) in *.
  assert (length lns = length cs + length cs mod 2) as HL.
  { unfold lns. by rewrite padNodes_count, length_map. }
  destruct (buildIntermediate_effect _ _ _ _ _ _ _ Hbuild)
    as (Hcnt & Hrange & Hext & Hframe & Hreach & Hint).
  { intros q Hq. apply elem_of_seq in Hq. rewrite length_app. lia. }
  { apply NoDup_seq. }
  rewrite length_seq, length_app in *. rewrite HL in *.
  set (L := length cs + length cs mod 2) in *.
  exists root. cbn [Root Leafs]. split; [done|]. split; [done|].
  split; [lia|]. split; [lia|]. split.
  { intros q nq Hq. apply Hframe; [by apply lookup_app_l_Some|].
    rewrite elem_of_seq. apply lookup_lt_Some in Hq. lia. }
  split.
  - intros p Hp. split; [by apply Hreach|].
    apply elem_of_seq in Hp.
    destruct (lookup_lt_is_Some_2 lns (p - base) ltac:(lia)) as [nd Hnd].
    destruct (Hext p nd) as (np & Hnp & E).
    { rewrite lookup_app_r by lia. done. }
    apply same_fields in E. destruct E as (EL & ER & Elf & Edup & EH & EC & ET).
    assert (Forall (fun nd => exists c, c ∈ cs /\ Tree nd = t /\ leaf nd = true /\
                       Left nd = None /\ Right nd = None /\ C nd = Some c /\
                       Hash nd = fst (CalculateHash c)) lns) as Hall.
    { apply padNodes_all.
      - apply Forall_forall. intros nd' Hnd'.
        apply list_elem_of_In, in_map_iff in Hnd' as (c & <- & Hc).
        exists c. split; [by apply list_elem_of_In | done].
      - intros nd' Hnd'.
        apply list_elem_of_In, in_map_iff in Hnd' as (c & <- & Hc).
        exists c. split; [by apply list_elem_of_In | done]. }
    rewrite Forall_lookup in Hall.
    destruct (Hall _ _ Hnd) as (c & Hc & HT & Hlf & HLn & HRn & HC & HH).
    exists np, c. split; [done|]. split; [by rewrite ET|].
    split; [by rewrite Elf|]. split; [by rewrite EL|]. split; [by rewrite ER|].
    split; [by rewrite EC|]. split; [done|]. split; [by rewrite EH|].
    intros Hdup. rewrite Edup in Hdup.
    unfold lns, padNodes in Hnd, HL. rewrite length_map in Hnd, HL.
    destruct (length cs mod 2 =? 1) eqn:Hodd.
    + apply Nat.eqb_eq in Hodd. split; [done|].
      destruct (last (map (leafNode t) cs)) as [ndl|] eqn:Hlast.
      * apply lookup_app_Some in Hnd as [Hnd | [Hge Hnd]].
        -- rewrite list_lookup_fmap in Hnd.
           destruct (cs !! (p - base)); [|done]. injection Hnd as <-. done.
        -- rewrite length_map in Hge. apply lookup_lt_Some in Hnd as Hlt.
           rewrite length_map in Hlt. simpl in Hlt. lia.
      * rewrite list_lookup_fmap in Hnd.
        destruct (cs !! (p - base)); [|done]. injection Hnd as <-. done.
    + rewrite list_lookup_fmap in Hnd.
      destruct (cs !! (p - base)); [|done]. injection Hnd as <-. done.
  - intros q nq Hq Hnq.
    destruct (Hint q nq ltac:(lia) Hnq)
      as (HT & Hlf & Hdup & HC & Hiff & Hrq & l & r & ndl & ndr & HLq & HRq & Hlq
          & Hrq' & Hlr & Hrr & Hch).
    repeat (split; [done|]). exists l, r, ndl, ndr.
    split; [done|]. split; [done|].
    split; [destruct Hlr as [Hx%elem_of_seq|]; lia|].
    split; [destruct Hrr as [Hx%elem_of_seq|]; lia|]. done.
Qed.

(** *** Arithmetic of [levels] and [internalCount] *)

Lemma div2_succ_bounds n :
  3 <= n ->
  2 <= Nat.div2 (S n) < n /\ 2 * Nat.div2 (S n) - 1 <= n <= 2 * Nat.div2 (S n).
Proof.
  intros Hn. rewrite Nat.div2_div.
  pose proof (Nat.div_mod_eq (S n) 2) as Hdm.
  pose proof (Nat.mod_upper_bound (S n) 2 ltac:(lia)) as Hub.
  set (d := S n / 2) in *. set (m := S n mod 2) in *. clearbody d m. lia.
Qed.

Lemma levels_bounds fuel :
  forall n, 2 <= n <= fuel ->
    1 <= levels fuel n /\
    2 ^ (levels fuel n - 1) < n <= 2 ^ levels fuel n.
Proof.
  induction fuel as [|fuel IH]; intros n Hn; [lia|]. cbn [levels internalCount].
  destruct (n =? 2) eqn:Htwo.
  - apply Nat.eqb_eq in Htwo as ->. simpl. lia.
  - apply Nat.eqb_neq in Htwo.
    destruct (div2_succ_bounds n ltac:(lia)) as [Hm1 Hm2].
    destruct (IH (Nat.div2 (S n)) ltac:(lia)) as [Hk Hpow].
    set (m := Nat.div2 (S n)) in *. clearbody m.
    set (k := levels fuel m) in *. clearbody k.
    destruct k as [|k]; [lia|].
    replace (S (S k) - 1) with (S k) by lia.
    replace (S k - 1) with k in Hpow by lia.
    rewrite !Nat.pow_succ_r' in *.
    set (x := 2 ^ k) in *. clearbody x. lia.
Qed.

Lemma internalCount_bounds fuel :
  forall n, 2 <= n <= fuel ->
    n - 1 <= internalCount fuel n <= n + levels fuel n - 2.
Proof.
  induction fuel as [|fuel IH]; intros n Hn; [lia|]. cbn [levels internalCount].
  destruct (n =? 2) eqn:Htwo.
  - apply Nat.eqb_eq in Htwo as ->. lia.
  - apply Nat.eqb_neq in Htwo.
    destruct (div2_succ_bounds n ltac:(lia)) as [Hm1 Hm2].
    pose proof (IH (Nat.div2 (S n)) ltac:(lia)) as Hic.
    destruct (levels_bounds fuel (Nat.div2 (S n)) ltac:(lia)) as [Hk _].
    set (m := Nat.div2 (S n)) in *. clearbody m. lia.
Qed.

(** *** Walks and parent chains *)

Lemma walk_length h root p k :
  reaches h root p k ->
  forall np fuel acc acci path idx,
    h !! p = Some np ->
    walk fuel h p (Parent np) acc acci = Some (path, idx) ->
    length path = length acc + k /\ length idx = length acci + k.
Proof.
  induction 1 as [nroot Hroot HP | p np q k Hp HP Hq IH];
    intros np' fuel acc acci path idx Hp' Hwalk.
  - rewrite Hroot in Hp'. injection Hp' as <-. rewrite HP in Hwalk.
    destruct fuel; simpl in Hwalk; injection Hwalk as <- <-; lia.
  - rewrite Hp in Hp'. injection Hp' as <-. rewrite HP in Hwalk.
    destruct fuel as [|fuel]; [done|]. simpl in Hwalk.
    destruct (h !! q) as [nq|] eqn:Hnq; [|done]. rewrite Hp in Hwalk.
    destruct (Left nq) as [l|]; [|done]. destruct (h !! l) as [nl|]; [|done].
    destruct (bytes_Equal (Hash nl) (Hash np)).
    + destruct (Right nq) as [r|]; [|done]. destruct (h !! r) as [nr|]; [|done].
      destruct (IH _ _ _ _ _ _ eq_refl Hwalk) as [H1 H2].
      rewrite length_app in H1, H2. simpl in *. lia.
    + destruct (IH _ _ _ _ _ _ eq_refl Hwalk) as [H1 H2].
      rewrite length_app in H1, H2. simpl in *. lia.
Qed.

(** The answer of [GetMerklePath] for a content that matches the leaf of
    item [i] first, and the chain that the walk climbs. *)
Lemma matched_leaf_walk cs st m st' content i c :
  NewTree cs st = Some ((Some m, None), st') ->
  cs !! i = Some c ->
  Equals c content = (true, None) ->
  Forall (fun cj => Equals cj content = (false, None)) (take i cs) ->
  exists np merklePath index,
    nodes st' !! (length (nodes st) + i) = Some np /\
    Hash np = fst (CalculateHash c) /\
    walk (length (nodes st')) (nodes st') (length (nodes st) + i) (Parent np) [] []
      = Some (merklePath, index) /\
    GetMerklePath m content (nodes st') = Some (merklePath, index, None) /\
    foldPath MD5.Sum (Hash np) merklePath index = MerkleRoot m.
Proof.
  intros Hnew Hi Heq Hbefore.
  destruct (built_leaf _ _ _ _ _ _ Hnew Hi) as (np & HLi & Hnp & HC & HH & _).
  pose proof Hnew as Hnew'.
  destruct (NewTree_success _ _ _ _ Hnew)
    as (root & nroot & _ & _ & -> & _ & _ & _ & Hroot & _ & _ & Hinv & _).
  pose proof (lookup_lt_Some _ _ _ Hnp) as Hplt.
  assert (length (nodes st) <= length (nodes st) + i) as Hbase by lia.
  pose proof (region_wf_up MD5.Sum (length (nodes st)) (nodes st') root nroot
                Hinv Hroot (length (nodes st) + i) Hbase Hplt) as Hup.
  destruct (walk_wf_up _ _ _ _ Hup np (length (nodes st')) [] [] Hnp ltac:(lia))
    as (path & idx & Hwalk & Hfold & Hlen).
  exists np, path, idx. repeat (split; [done|]). split; [|done].
  unfold GetMerklePath. simpl.
  rewrite (scanLeafs_match (nodes st') content _ i (length (nodes st) + i) np c);
    try done.
  - by rewrite Hwalk.
  - intros j q Hj Hjq. apply lookup_seq in Hjq as [-> _].
    pose proof (lookup_lt_Some _ _ _ Hi) as Hilt.
    destruct (lookup_lt_is_Some_2 cs j ltac:(lia)) as [cj Hcj].
    destruct (built_leaf _ _ _ _ _ _ Hnew' Hcj) as (nq & _ & Hnq & HCq & _).
    exists nq, cj. split; [done|]. split; [done|].
    rewrite Forall_lookup in Hbefore. apply (Hbefore j).
    by rewrite lookup_take_lt.
Qed.

Lemma even_padded n : (n + n mod 2) mod 2 = 0.
Proof.
  pose proof (Nat.div_mod_eq n 2) as Hdm.
  pose proof (Nat.mod_upper_bound n 2 ltac:(lia)) as Hub.
  replace (n + n mod 2) with ((n / 2 + n mod 2) * 2) by lia.
  apply Nat.Div0.mod_mul.
Qed.

Lemma reaches_parent h root p k :
  reaches h root p (S k) ->
  exists np q, h !! p = Some np /\ Parent np = Some q /\ reaches h root q k.
Proof. inversion 1; eauto. Qed.

Lemma padded_ge_2 (n : nat) : 0 < n -> 2 <= n + n mod 2.
Proof.
  intros Hn. pose proof (Nat.mod_upper_bound n 2 ltac:(lia)).
  destruct n as [|[|?]]; [lia | done | lia].
Qed.

(** Every leaf of a built tree has a parent. *)
Lemma leaf_has_parent cs st m st' q nq :
  NewTree cs st = Some ((Some m, None), st') ->
  q ∈ Leafs m -> nodes st' !! q = Some nq -> is_Some (Parent nq).
Proof.
  intros Hnew Hin Hnq.
  destruct (NewTree_inv _ _ _ _ Hnew) as [Hne Hok].
  destruct (NewTree_structure _ _ _ _ Hnew)
    as (root & _ & HL & _ & _ & _ & Hleaf & _).
  assert (0 < length cs) as Hpos by (destruct cs; [done | simpl; lia]).
  pose proof (padded_ge_2 _ Hpos) as HL2.
  destruct (Hleaf q Hin) as (Hreach & _).
  set (L := length cs + length cs mod 2) in *.
  destruct (levels_bounds L L ltac:(lia)) as [Hlev _].
  destruct (levels L L) as [|d]; [lia|].
  apply reaches_parent in Hreach as (np & n & Hp & HP & _).
  rewrite Hnq in Hp. injection Hp as <-. eauto.
Qed.

(** ** Further properties: the built tree *)

(** X1. The leaf list of a built tree has the length of the content
    list rounded up to an even number - so at least 2 -, holds no node
    twice, and the one leaf flagged as duplicate is the padding leaf of
    an odd-length list. *)
Theorem leaf_list_shape cs st m st' :
  NewTree cs st = Some ((Some m, None), st') ->
  length (Leafs m) = length cs + length cs mod 2 /\
  length (Leafs m) mod 2 = 0 /\ 2 <= length (Leafs m) /\ NoDup (Leafs m) /\
  (forall i p np,
     Leafs m !! i = Some p -> nodes st' !! p = Some np ->
     (dup np = true <-> length cs mod 2 = 1 /\ i = length cs)).
Proof.
  intros Hnew.
  destruct (NewTree_inv _ _ _ _ Hnew) as [Hne Hok].
  destruct (NewTree_structure _ _ _ _ Hnew)
    as (root & _ & HL & _ & _ & _ & Hleaf & _).
  rewrite HL, length_seq. split; [done|]. split; [apply even_padded|].
  assert (0 < length cs) as Hpos by (destruct cs; [done | simpl; lia]).
  split; [by apply padded_ge_2|].
  split; [apply NoDup_seq|].
  intros i p np Hi Hp. split.
  - intros Hdup.
    destruct (Hleaf p) as (_ & np' & c & Hp' & _ & _ & _ & _ & _ & _ & _ & Hd).
    { rewrite HL. by eapply list_elem_of_lookup_2. }
    rewrite Hp in Hp'. injection Hp' as <-.
    destruct (Hd Hdup) as [Hodd ->]. split; [done|].
    apply lookup_seq in Hi. lia.
  - intros [Hodd ->].
    destruct (last cs) as [clast|] eqn:Hlast; [|by apply last_None in Hlast].
    destruct (built_dup_leaf _ _ _ _ _ Hnew Hodd Hlast)
      as (nb & _ & HLd & Hnb & Hdup & _).
    rewrite HL in HLd. rewrite Hi in HLd. injection HLd as ->.
    rewrite Hp in Hnb. by injection Hnb as ->.
Qed.

(** X2. Every node that a successful [NewTree] adds to the arena is
    either a leaf of the leaf list - flagged [leaf], without children,
    holding an item of the content list, with a parent - or an internal
    node - not flagged, without content, with both children; and it
    refers to the tree under construction. *)
Theorem nodes_are_leaves_or_internal cs st m st' q nq :
  NewTree cs st = Some ((Some m, None), st') ->
  length (nodes st) <= q -> nodes st' !! q = Some nq ->
  Tree nq = trees st /\
  ((q ∈ Leafs m /\ leaf nq = true /\ Left nq = None /\ Right nq = None /\
    (exists c, C nq = Some c /\ c ∈ cs) /\ is_Some (Parent nq))
   \/
   ((q ∉ Leafs m) /\ leaf nq = false /\ dup nq = false /\ C nq = None /\
    is_Some (Left nq) /\ is_Some (Right nq))).
Proof.
  intros Hnew Hq Hnq.
  destruct (NewTree_inv _ _ _ _ Hnew) as [Hne Hok].
  destruct (NewTree_structure _ _ _ _ Hnew)
    as (root & _ & HL & _ & _ & _ & Hleaf & Hint).
  set (L := length cs + length cs mod 2) in *.
  destruct (decide (q < length (nodes st) + L)) as [Hlt | Hge].
  - assert (q ∈ Leafs m) as Hin by (rewrite HL, elem_of_seq; lia).
    destruct (Hleaf q Hin)
      as (Hreach & np & c & Hp & HT & Hlf & HLn & HRn & HC & Hc & _).
    rewrite Hnq in Hp. injection Hp as <-. split; [done|]. left.
    split; [done|]. split; [done|]. split; [done|]. split; [done|].
    split; [eauto|]. by eapply leaf_has_parent.
  - destruct (Hint q nq ltac:(lia) Hnq)
      as (HT & Hlf & Hdup & HC & _ & _ & l & r & _ & _ & HLq & HRq & _).
    split; [done|]. right. split; [rewrite HL, elem_of_seq; lia|].
    split; [done|]. split; [done|]. split; [done|].
    split; [by rewrite HLq | by rewrite HRq].
Qed.

(** X3. In a built tree the links agree: a child of a node has that
    node as its parent and was allocated before it; the parent of a
    node has the node as a child; and the root is the one node without
    a parent. *)
Theorem parent_and_child_links_agree cs st m st' :
  NewTree cs st = Some ((Some m, None), st') ->
  (forall q nq l,
     length (nodes st) <= q -> nodes st' !! q = Some nq ->
     (Left nq = Some l \/ Right nq = Some l) ->
     exists ndl, length (nodes st) <= l < q /\
                 nodes st' !! l = Some ndl /\ Parent ndl = Some q) /\
  (forall q nq n,
     length (nodes st) <= q -> nodes st' !! q = Some nq -> Parent nq = Some n ->
     exists nn, q < n /\ nodes st' !! n = Some nn /\ leaf nn = false /\
                (Left nn = Some q \/ Right nn = Some q)) /\
  (forall q nq,
     length (nodes st) <= q -> nodes st' !! q = Some nq ->
     (Parent nq = None <-> Root m = Some q)).
Proof.
  intros Hnew.
  destruct (NewTree_success _ _ _ _ Hnew)
    as (root0 & nroot & _ & _ & _ & _ & _ & _ & _ & _ & _ & Hinv & _).
  destruct (NewTree_structure _ _ _ _ Hnew)
    as (root & HR & HL & _ & Hrange & _ & Hleaf & Hint).
  set (L := length cs + length cs mod 2) in *.
  assert (forall q nq, length (nodes st) <= q -> q < length (nodes st) + L ->
            nodes st' !! q = Some nq ->
            Left nq = None /\ Right nq = None) as Hnochild.
  { intros q nq Hq Hlt Hnq.
    destruct (Hleaf q) as (_ & np & c & Hp & _ & _ & HLn & HRn & _).
    { rewrite HL, elem_of_seq. lia. }
    rewrite Hnq in Hp. by injection Hp as <-. }
  split; [|split].
  - intros q nq l Hq Hnq Hch.
    destruct (decide (q < length (nodes st) + L)) as [Hlt | Hge].
    { destruct (Hnochild q nq Hq Hlt Hnq) as [HLn HRn].
      destruct Hch; congruence. }
    destruct (Hint q nq ltac:(lia) Hnq)
      as (_ & _ & _ & _ & _ & _ & l' & r' & ndl & ndr & HLq & HRq & Hl & Hr & Hnl
          & HPl & Hnr & HPr).
    destruct Hch as [Hch | Hch].
    + rewrite HLq in Hch. injection Hch as <-. eauto.
    + rewrite HRq in Hch. injection Hch as <-. eauto.
  - intros q nq n Hq Hnq HP. destruct (Hinv q nq Hq Hnq) as [_ Hpar].
    unfold parent_ok in Hpar. rewrite HP in Hpar.
    destruct Hpar as (Hlt & nn & Hn & Hlf & Hch). eauto.
  - intros q nq Hq Hnq. rewrite HR.
    destruct (decide (q < length (nodes st) + L)) as [Hlt | Hge].
    + destruct (leaf_has_parent _ _ _ _ q nq Hnew) as [x Hx];
        [rewrite HL, elem_of_seq; lia | done |].
      split; [congruence|]. intros [= ->]. lia.
    + destruct (Hint q nq ltac:(lia) Hnq) as (_ & _ & _ & _ & Hiff & _).
      rewrite Hiff. split; [by intros -> | by intros [= ->]].
Qed.

(** X4. A built tree is balanced: every leaf is the same number [d] of
    parent links below the root, every node of the tree reaches the
    root, and [d] is the logarithm of the number of leaves rounded up:
    [2^(d-1) < length Leafs <= 2^d]. *)
Theorem leaves_are_equally_deep cs st m st' :
  NewTree cs st = Some ((Some m, None), st') ->
  exists root d,
    Root m = Some root /\ 1 <= d /\
    2 ^ (d - 1) < length (Leafs m) <= 2 ^ d /\
    (forall p, p ∈ Leafs m -> reaches (nodes st') root p d) /\
    (forall q, length (nodes st) <= q < length (nodes st') ->
       exists k, reaches (nodes st') root q k).
Proof.
  intros Hnew.
  destruct (NewTree_inv _ _ _ _ Hnew) as [Hne Hok].
  destruct (NewTree_structure _ _ _ _ Hnew)
    as (root & HR & HL & _ & _ & _ & Hleaf & Hint).
  assert (0 < length cs) as Hpos by (destruct cs; [done | simpl; lia]).
  pose proof (padded_ge_2 _ Hpos) as HL2.
  set (L := length cs + length cs mod 2) in *.
  destruct (levels_bounds L L ltac:(lia)) as [Hlev Hpow].
  exists root, (levels L L). rewrite HL in Hleaf |- *. rewrite length_seq.
  split; [done|]. split; [done|]. split; [done|]. split.
  - intros p Hp. by destruct (Hleaf p Hp) as [Hr _].
  - intros q [Hq Hlt].
    destruct (lookup_lt_is_Some_2 _ _ Hlt) as [nq Hnq].
    destruct (decide (q < length (nodes st) + L)) as [Hlf | Hge].
    + destruct (Hleaf q) as [Hr _]; [rewrite elem_of_seq; lia | eauto].
    + by destruct (Hint q nq ltac:(lia) Hnq) as (_ & _ & _ & _ & _ & Hk & _).
Qed.

(** X5. The path that [GetMerklePath] returns for a content found in a
    built tree has one entry per level: its length [k] is at least 1
    and satisfies [2^(k-1) < length Leafs <= 2^k]. *)
Theorem path_length_is_logarithmic cs st m st' content i c :
  NewTree cs st = Some ((Some m, None), st') ->
  cs !! i = Some c ->
  Equals c content = (true, None) ->
  Forall (fun cj => Equals cj content = (false, None)) (take i cs) ->
  exists merklePath index,
    GetMerklePath m content (nodes st') = Some (merklePath, index, None) /\
    length index = length merklePath /\
    1 <= length merklePath /\
    2 ^ (length merklePath - 1) < length (Leafs m) <= 2 ^ length merklePath.
Proof.
  intros Hnew Hi Heq Hbefore.
  destruct (matched_leaf_walk _ _ _ _ _ _ _ Hnew Hi Heq Hbefore)
    as (np & path & idx & Hnp & _ & Hwalk & Hget & _).
  destruct (NewTree_inv _ _ _ _ Hnew) as [Hne Hok].
  destruct (NewTree_structure _ _ _ _ Hnew)
    as (root & HR & HL & _ & _ & _ & Hleaf & _).
  assert (0 < length cs) as Hpos by (destruct cs; [done | simpl; lia]).
  pose proof (padded_ge_2 _ Hpos) as HL2.
  set (L := length cs + length cs mod 2) in *.
  destruct (levels_bounds L L ltac:(lia)) as [Hlev Hpow].
  destruct (Hleaf (length (nodes st) + i)) as [Hreach _].
  { rewrite HL, elem_of_seq. apply lookup_lt_Some in Hi. lia. }
  destruct (walk_length _ _ _ _ Hreach _ _ _ _ _ _ Hnp Hwalk) as [Hlp Hli].
  simpl in Hlp, Hli. exists path, idx. rewrite HL, length_seq, Hlp, Hli.
  split; [done|]. split; [done|]. split; [done|]. done.
Qed.

(** X6. A successful [NewTree] adds the leaves and [k] internal nodes to
    the arena, one per hash computed, with
    [length Leafs - 1 <= k <= length Leafs + d - 2] where [d] is the
    number of levels ([2^(d-1) < length Leafs <= 2^d]). *)
Theorem node_count_is_linear cs st m st' :
  NewTree cs st = Some ((Some m, None), st') ->
  exists k d,
    length (nodes st') = length (nodes st) + length (Leafs m) + k /\
    length (Leafs m) - 1 <= k <= length (Leafs m) + d - 2 /\
    2 ^ (d - 1) < length (Leafs m) <= 2 ^ d.
Proof.
  intros Hnew.
  destruct (NewTree_inv _ _ _ _ Hnew) as [Hne Hok].
  destruct (NewTree_structure _ _ _ _ Hnew)
    as (root & HR & HL & Hcnt & _).
  assert (0 < length cs) as Hpos by (destruct cs; [done | simpl; lia]).
  pose proof (padded_ge_2 _ Hpos) as HL2.
  set (L := length cs + length cs mod 2) in *.
  destruct (levels_bounds L L ltac:(lia)) as [Hlev Hpow].
  pose proof (internalCount_bounds L L ltac:(lia)) as Hic.
  exists (internalCount L L), (levels L L). rewrite HL, length_seq.
  split; [done|]. split; done.
Qed.

End Structure.

Section Behaviour.

Context {T : Type} `{Content T}.
Implicit Types (h : heap T) (nd nq : Node T) (p q l r n : ptr).

(** *** The shape of every answer of the extractor *)

Lemma walk_shape fuel h :
  forall p par acc acci path idx,
    walk fuel h p par acc acci = Some (path, idx) ->
    exists path' idx',
      path = acc ++ path' /\ idx = acci ++ idx' /\
      length idx' = length path' /\
      Forall (fun d => d = 0%Z \/ d = 1%Z) idx' /\
      Forall (fun d => exists q nq, h !! q = Some nq /\ Hash nq = d) path'.
Proof.
  induction fuel as [|fuel IH]; intros p par acc acci path idx Hwalk.
  - destruct par; [done|]. injection Hwalk as <- <-.
    exists [], []. by rewrite !app_nil_r.
  - destruct par as [q|]; simpl in Hwalk.
    2:{ injection Hwalk as <- <-. exists [], []. by rewrite !app_nil_r. }
    destruct (h !! q) as [nq|] eqn:Hq; [|done].
    destruct (h !! p) as [np|] eqn:Hp; [|done].
    destruct (Left nq) as [l|]; [|done].
    destruct (h !! l) as [nl|] eqn:Hl; [|done].
    destruct (bytes_Equal (Hash nl) (Hash np)).
    + destruct (Right nq) as [r|]; [|done].
      destruct (h !! r) as [nr|] eqn:Hr; [|done].
      destruct (IH _ _ _ _ _ _ Hwalk) as (path' & idx' & -> & -> & Hlen & Hmk & Hhs).
      exists (Hash nr :: path'), (1%Z :: idx'). rewrite <- !app_assoc. simpl.
      split; [done|]. split; [done|]. split; [lia|].
      split; constructor; eauto.
    + destruct (IH _ _ _ _ _ _ Hwalk) as (path' & idx' & -> & -> & Hlen & Hmk & Hhs).
      exists (Hash nl :: path'), (0%Z :: idx'). rewrite <- !app_assoc. simpl.
      split; [done|]. split; [done|]. split; [lia|].
      split; constructor; eauto.
Qed.

(** X7. Whatever the tree and the arena, an answer of [GetMerklePath]
    has as many markers as digests, every marker is 0 or 1, every
    digest is the hash of a node of the arena, and an answer with an
    error carries two empty lists. *)
Theorem merkle_path_shape (m : MerkleTree) content h merklePath index err :
  GetMerklePath m content h = Some (merklePath, index, err) ->
  length index = length merklePath /\
  Forall (fun d => d = 0%Z \/ d = 1%Z) index /\
  Forall (fun d => exists q nq, h !! q = Some nq /\ Hash nq = d) merklePath /\
  (err <> None -> merklePath = [] /\ index = []).
Proof.
  unfold GetMerklePath. generalize (Leafs m) as leafs.
  induction leafs as [|p leafs IH]; simpl; intros Hscan.
  - injection Hscan as <- <- <-. by repeat split.
  - destruct (h !! p) as [np|]; [|done]. destruct (C np) as [c|]; [|done].
    destruct (Equals c content) as [ok [e|]].
    { injection Hscan as <- <- <-. by repeat split. }
    destruct ok; [|by apply IH].
    destruct (walk (length h) h p (Parent np) [] []) as [[path idx]|] eqn:Hwalk;
      [|done].
    injection Hscan as <- <- <-.
    destruct (walk_shape _ _ _ _ _ _ _ _ Hwalk)
      as (path' & idx' & -> & -> & Hlen & Hmk & Hhs).
    simpl. by repeat split.
Qed.

(** *** The root as a function of the digests *)

Lemma root_formula cs st m st' :
  NewTree cs st = Some ((Some m, None), st') ->
  rootHash MD5.Sum
    (length (padHashes (map (fun c => fst (CalculateHash c)) cs)))
    (padHashes (map (fun c => fst (CalculateHash c)) cs))
  = Some (MerkleRoot m).
Proof.
  intros Hnew.
  destruct (NewTree_success _ _ _ _ Hnew)
    as (root & nroot & _ & _ & -> & _ & _ & _ & _ & _ & Hrh & _).
  by rewrite leaf_hashes, leaf_count in Hrh.
Qed.



End Behaviour.

Section Use.

Context {T : Type} `{Content T}.
Implicit Types (h : heap T) (nd nq : Node T) (p q n : ptr).

(** *** Later builds and earlier trees *)






(** *** The extractor on a built tree *)

Lemma built_leaf_walks cs st m st' p :
  NewTree cs st = Some ((Some m, None), st') ->
  p ∈ Leafs m ->
  exists np c path idx,
    nodes st' !! p = Some np /\ C np = Some c /\ c ∈ cs /\
    Hash np = fst (CalculateHash c) /\
    walk (length (nodes st')) (nodes st') p (Parent np) [] [] = Some (path, idx) /\
    foldPath MD5.Sum (Hash np) path idx = MerkleRoot m /\
    length path = length idx /\ path <> [].
Proof.
  intros Hnew Hp.
  destruct (NewTree_success _ _ _ _ Hnew)
    as (root & nroot & _ & _ & Hm & _ & _ & _ & Hroot & _ & _ & Hreg & _ & _).
  destruct (NewTree_structure _ _ _ _ Hnew)
    as (root' & Hr' & HL & Hlen & Hrange & _ & Hleaf & _).
  destruct (Hleaf _ Hp) as (Hreach & np & c & Hnp & _ & _ & _ & _ & Hc & Hin & Hh & _).
  rewrite HL in Hp. apply elem_of_seq in Hp.
  assert (p < length (nodes st')) as Hlt by (by eapply lookup_lt_Some).
  pose proof (region_wf_up _ _ _ _ _ Hreg Hroot p ltac:(lia) Hlt) as Hwf.
  destruct (walk_wf_up _ _ _ _ Hwf np (length (nodes st')) [] [] Hnp ltac:(lia))
    as (path & idx & Hwalk & Hfold & Hli).
  simpl in Hwalk. exists np, c, path, idx.
  split; [done|]. split; [done|]. split; [done|]. split; [done|].
  split; [done|]. split; [by rewrite Hm|]. split; [done|].
  destruct (walk_length _ _ _ _ Hreach _ _ _ _ _ _ Hnp Hwalk) as [Hpl _].
  cbn [length Nat.add] in Hpl.
  destruct (NewTree_inv _ _ _ _ Hnew) as [Hne _].
  assert (0 < length cs) as Hpos by (destruct cs; [done|simpl; lia]).
  pose proof (padded_ge_2 _ Hpos) as Hge.
  destruct (levels_bounds (length cs + length cs mod 2)
              (length cs + length cs mod 2) ltac:(lia)) as [Hlv _].
  intros ->. cbn [length] in Hpl. lia.
Qed.

(** X11. On a built tree [GetMerklePath] returns for every target,
    whatever the equality test of the content type answers: it meets no
    missing node and no missing content, and the walk up ends. *)
Theorem merkle_path_always_returns cs st m st' content :
  NewTree cs st = Some ((Some m, None), st') ->
  exists merklePath index err,
    GetMerklePath m content (nodes st') = Some (merklePath, index, err).
Proof.
  intros Hnew. unfold GetMerklePath.
  assert (forall p, p ∈ Leafs m -> exists np c path idx,
            nodes st' !! p = Some np /\ C np = Some c /\
            walk (length (nodes st')) (nodes st') p (Parent np) [] []
              = Some (path, idx)) as Hall.
  { intros p Hp.
    destruct (built_leaf_walks _ _ _ _ _ Hnew Hp)
      as (np & c & path & idx & Hnp & Hc & _ & _ & Hwalk & _). eauto 10. }
  induction (Leafs m) as [|p leafs IH]; simpl; [eauto|].
  destruct (Hall p ltac:(el)) as (np & c & path & idx & -> & -> & ->).
  destruct (Equals c content) as [ok [e|]]; [eauto|].
  destruct ok; [eauto|]. apply IH. intros q Hq. apply Hall. el.
Qed.

Lemma first_match {A : Type} (P : A -> bool) (xs : list A) :
  (exists a, a ∈ xs /\ P a = true) ->
  exists i a, xs !! i = Some a /\ P a = true /\
              Forall (fun b => P b = false) (take i xs).
Proof.
  induction xs as [|x xs IH]; intros (a & Hin & Ha).
  - by apply elem_of_nil in Hin.
  - destruct (P x) eqn:Hx.
    + exists 0, x. by repeat split.
    + apply elem_of_cons in Hin as [->|Hin]; [congruence|].
      destruct (IH (ex_intro _ a (conj Hin Ha))) as (i & b & Hi & Hb & Hpre).
      exists (S i), b. split; [done|]. split; [done|]. simpl. by constructor.
Qed.

Lemma lawful_match (cs : list T) content :
  (forall a, a ∈ cs -> snd (Equals a content) = None) ->
  (exists a, a ∈ cs /\ fst (Equals a content) = true) ->
  exists i c, cs !! i = Some c /\ Equals c content = (true, None) /\
              Forall (fun cj => Equals cj content = (false, None)) (take i cs).
Proof.
  intros Hnoerr Hex.
  destruct (first_match (fun a => fst (Equals a content)) cs Hex)
    as (i & c & Hi & Hc & Hpre).
  assert (c ∈ cs) as Hin by (by eapply list_elem_of_lookup_2).
  exists i, c. split; [done|]. split.
  { specialize (Hnoerr _ Hin). destruct (Equals c content); simpl in *. congruence. }
  apply Forall_forall. intros b Hb.
  assert (b ∈ cs) as Hbin.
  { apply list_elem_of_lookup in Hb as [j Hj]. apply lookup_take_Some in Hj as [Hj _].
    by eapply list_elem_of_lookup_2. }
  rewrite Forall_forall in Hpre. specialize (Hpre _ Hb). specialize (Hnoerr _ Hbin).
  destruct (Equals b content); simpl in *. congruence.
Qed.

Lemma matched_leaf_answer cs st m st' content i c :
  NewTree cs st = Some ((Some m, None), st') ->
  cs !! i = Some c ->
  Equals c content = (true, None) ->
  Forall (fun cj => Equals cj content = (false, None)) (take i cs) ->
  exists merklePath index,
    GetMerklePath m content (nodes st') = Some (merklePath, index, None) /\
    merklePath <> [] /\
    foldPath MD5.Sum (fst (CalculateHash c)) merklePath index = MerkleRoot m.
Proof.
  intros Hnew Hi Heq Hpre.
  destruct (matched_leaf_walk _ _ _ _ _ _ _ Hnew Hi Heq Hpre)
    as (np & path & idx & Hnp & Hh & Hwalk & Hget & Hfold).
  destruct (built_leaf _ _ _ _ _ _ Hnew Hi) as (np' & HLi & Hnp' & _).
  destruct (built_leaf_walks _ _ _ _ (length (nodes st) + i) Hnew
              ltac:(by eapply list_elem_of_lookup_2))
    as (np2 & c2 & path2 & idx2 & Hnp2 & _ & _ & _ & Hwalk2 & _ & _ & Hne).
  assert (np2 = np) as -> by congruence.
  assert (path2 = path) as -> by congruence.
  exists path, idx. split; [done|]. split; [done|]. by rewrite <- Hh.
Qed.


(** *** A failing write of the strategy *)

(** X13. When the strategy's write fails on the concatenation of the
    first two leaf digests, [buildWithContent] returns that error with
    no root and no leaf list; the arena holds the leaves and no
    internal node. *)
Theorem write_failure_aborts_build cs t hs h0 d0 d1 rest e :
  digests_ok cs ->
  padHashes (map (fun c => fst (CalculateHash c)) cs) = d0 :: d1 :: rest ->
  Write hs (d0 ++ d1) = Some e ->
  buildWithContent cs t hs h0 =
    Some ((None, [], Some e), h0 ++ padNodes t (map (leafNode t) cs)).
Proof.
  intros Hok Hpad Hw.
  assert (cs <> []) as Hne by (intros ->; done).
  rewrite (buildWithContent_unfold _ _ _ _ Hne Hok).
  pose proof (leaf_hashes t cs) as Hh. rewrite Hpad in Hh.
  destruct (padNodes t (map (leafNode t) cs)) as [|nd0 [|nd1 lns]]; [done|done|].
  injection Hh as Hh0 Hh1 _.
  cbn [length seq buildIntermediate pairLoop].
  assert ((h0 ++ nd0 :: nd1 :: lns) !! length h0 = Some nd0) as Hl0.
  { by rewrite lookup_app_r, Nat.sub_diag by lia. }
  assert ((h0 ++ nd0 :: nd1 :: lns) !! S (length h0) = Some nd1) as Hl1.
  { rewrite lookup_app_r by lia. by replace (S (length h0) - length h0) with 1 by lia. }
  rewrite (pairNodes_error _ _ _ _ _ _ _ e Hl0 Hl1) by (by rewrite Hh0, Hh1).
  done.
Qed.

(** *** The tree of a single item *)

(** X14. A list of one item whose digest is [d] builds a tree of two
    leaves and one internal node; the root digest is the digest of
    [d ++ d], not [d], and the item's path is the single digest [d]
    with marker 1. *)
Theorem single_item_tree c st :
  snd (CalculateHash c) = None -> Equals c c = (true, None) ->
  exists m st',
    NewTree [c] st = Some ((Some m, None), st') /\
    length (Leafs m) = 2 /\
    length (nodes st') = length (nodes st) + 3 /\
    MerkleRoot m = MD5.Sum (fst (CalculateHash c) ++ fst (CalculateHash c)) /\
    GetMerklePath m c (nodes st')
      = Some ([fst (CalculateHash c)], [1%Z], None).
Proof.
  intros Hc Heq.
  destruct (NewTree_ok [c] st ltac:(done) ltac:(by constructor))
    as (root & nroot & h' & Hnew & _).
  eexists _, _. split; [exact Hnew|].
  destruct (NewTree_structure _ _ _ _ Hnew)
    as (root' & _ & HL & Hlen & _ & _ & Hleaf & _).
  split; [by rewrite HL, length_seq|]. split; [cbn in Hlen |- *; lia|].
  pose proof (root_formula _ _ _ _ Hnew) as Hroot.
  split.
  { match goal with
    | |- MerkleRoot ?m = ?rhs =>
        assert (Some rhs = Some (MerkleRoot m)) as Hr by exact Hroot
    end.
    by injection Hr. }
  destruct (matched_leaf_walk [c] _ _ _ c 0 c Hnew eq_refl Heq ltac:(constructor))
    as (np & path & idx & Hnp & Hh & Hwalk & Hget & _).
  destruct (dup_leaf_parent _ _ _ _ Hnew eq_refl)
    as (n & nn & na & nb & Hn & Hleft & Hright & Hna & Hpa & Hnb & _).
  destruct (built_dup_leaf _ _ _ _ c Hnew eq_refl eq_refl)
    as (nb' & _ & _ & Hnb' & _ & _ & Hhb & _).
  cbn [length Nat.sub] in Hleft, Hright, Hna, Hnb, Hnb'.
  assert (na = np) as -> by congruence. assert (nb' = nb) as -> by congruence.
  destruct (Hleaf (length (nodes st) + 0)) as [Hreach _].
  { rewrite HL. apply elem_of_seq. cbn. lia. }
  destruct (walk_length _ _ _ _ Hreach _ _ _ _ _ _ Hnp Hwalk) as [Hpl Hil].
  cbn in Hpl, Hil.
  rewrite Hget. rewrite Hpa in Hwalk. cbn [nodes] in *.
  destruct (length h') as [|fuel] eqn:Hfuel; [done|].
  cbn [walk] in Hwalk. rewrite Hn, Hnp, Hleft, Hnp in Hwalk.
  rewrite (proj2 (bytes_Equal_eq _ _) eq_refl), Hright, Hnb in Hwalk.
  destruct (walk_shape _ _ _ _ _ _ _ _ Hwalk)
    as (path' & idx' & -> & -> & _ & _ & _).
  rewrite length_app in Hpl, Hil. cbn in Hpl, Hil.
  destruct path'; [|simpl in Hpl; lia]. destruct idx'; [|simpl in Hil; lia].
  cbn. by rewrite Hhb.
Qed.

End Use.

Section Edges.

Context {T : Type} `{Content T}.
Implicit Types (h : heap T) (nd nq : Node T) (p q n : ptr).

Lemma pairNodes_error_write t hs h l r e h' :
  pairNodes t hs l r h = Some (inr e, h') ->
  exists data, Write hs data = Some e.
Proof.
  unfold pairNodes, alloc, setParent.
  destruct (h !! l) as [nl|]; [|done]. destruct (h !! r) as [nr|]; [|done].
  destruct (Write hs (Hash nl ++ Hash nr)) as [e'|] eqn:Hw.
  - intros [= <- _]. eauto.
  - by repeat case_match.
Qed.

(** X15. [buildIntermediate] never yields a root from a level of fewer
    than two nodes: an empty level is handed on unchanged and a single
    node is paired with itself into a level of one node again, level
    after level.  Whatever the number of levels allowed, the call has
    not returned, unless a write of the strategy failed, and then it
    returned that error and no root. *)
Theorem short_level_never_yields_root fuel nl t hs h :
  length nl < 2 ->
  (forall root err h',
     buildIntermediate fuel nl t hs h = Some ((root, err), h') ->
     root = None /\ exists e data, err = Some e /\ Write hs data = Some e) /\
  ((forall data, Write hs data = None) ->
   buildIntermediate fuel nl t hs h = None).
Proof.
  revert nl h. induction fuel as [|fuel IH]; intros nl h Hlen; [done|].
  destruct nl as [|p [|? ?]]; [| |simpl in Hlen; lia].
  { by rewrite buildIntermediate_empty_level. }
  cbn [buildIntermediate pairLoop length].
  destruct (pairNodes t hs p p h) as [[[n|e] h1]|] eqn:Hpair; cbn; [| |done].
  - apply IH. simpl. lia.
  - destruct (pairNodes_error_write _ _ _ _ _ _ _ Hpair) as [data Hw]. split.
    + intros root err h' [= <- <- <-]. eauto.
    + intros Hnever. by rewrite Hnever in Hw.
Qed.

End Edges.

(** *** The content type of the demo program *)

Lemma TestContent_digests_ok (cs : list Demo.TestContent) : digests_ok cs.
Proof. apply Forall_forall. by intros c _. Qed.

(** X16. For the content type of the demo program every non-empty list
    builds, and on the built tree [GetMerklePath] decides membership:
    an item of the list gets a non-empty path that folds from the MD5
    digest of its string to the root digest, and an item that is not in
    the list gets the empty answer without an error. *)
Theorem test_content_lookup_decides_membership
    (cs : list Demo.TestContent) (st : store Demo.TestContent) :
  cs <> [] ->
  exists m st',
    NewTree cs st = Some ((Some m, None), st') /\
    forall c,
      (c ∈ cs ->
       exists merklePath index,
         GetMerklePath m c (nodes st') = Some (merklePath, index, None) /\
         merklePath <> [] /\
         foldPath MD5.Sum (MD5.Sum (bytes_of_string (Demo.x c))) merklePath index
           = MerkleRoot m) /\
      (c ∉ cs -> GetMerklePath m c (nodes st') = Some ([], [], None)).
Proof.
  intros Hne.
  destruct (NewTree_ok cs st Hne (TestContent_digests_ok cs))
    as (root & nroot & h' & Hnew & _).
  eexists _, _. split; [exact Hnew|]. intros c. split.
  - intros Hin.
    destruct (lawful_match cs c) as (i & a & Hi & Heq & Hpre).
    { by intros a _. }
    { exists c. split; [done|]. simpl. apply String.eqb_refl. }
    destruct (matched_leaf_answer _ _ _ _ _ _ _ Hnew Hi Heq Hpre)
      as (path & idx & Hget & Hnonempty & Hfold).
    exists path, idx. split; [done|]. split; [done|].
    injection Heq as Hx. apply String.eqb_eq in Hx. rewrite <- Hx. exact Hfold.
  - intros Hnin. unfold GetMerklePath. apply scanLeafs_absent.
    destruct (NewTree_structure _ _ _ _ Hnew) as (root' & _ & _ & _ & _ & _ & Hleaf & _).
    apply Forall_forall. intros q Hq.
    destruct (Hleaf q Hq) as (_ & np & a & Hnp & _ & _ & _ & _ & Ha & Hain & _).
    exists np, a. split; [done|]. split; [done|].
    change (Equals a c) with (String.eqb (Demo.x a) (Demo.x c), @None error).
    f_equal. apply String.eqb_neq. intros Hx. apply Hnin.
    destruct a as [xa], c as [xc]. simpl in Hx. by subst.
Qed.

(** ** The further properties on concrete inputs *)

Lemma leaf_list_shape_witness :
  exists m st',
    NewTree Demo.abc_list Demo.empty = Some ((Some m, None), st') /\
    length (Leafs m) = length Demo.abc_list + length Demo.abc_list mod 2 /\
    length (Leafs m) mod 2 = 0 /\ 2 <= length (Leafs m) /\ NoDup (Leafs m) /\
    (forall i p np,
       Leafs m !! i = Some p -> nodes st' !! p = Some np ->
       (dup np = true <->
        length Demo.abc_list mod 2 = 1 /\ i = length Demo.abc_list)).
Proof.
  eexists _, _. split; [eval_build|].
  apply (leaf_list_shape Demo.abc_list Demo.empty). eval_build.
Defined.

Lemma nodes_are_leaves_or_internal_witness :
  exists m st' nq,
    NewTree Demo.main_list Demo.empty = Some ((Some m, None), st') /\
    length (nodes Demo.empty) <= 4 /\ nodes st' !! 4 = Some nq /\
    Tree nq = trees Demo.empty /\
    ((4 ∈ Leafs m /\ leaf nq = true /\ Left nq = None /\ Right nq = None /\
      (exists c, C nq = Some c /\ c ∈ Demo.main_list) /\ is_Some (Parent nq))
     \/
     ((4 ∉ Leafs m) /\ leaf nq = false /\ dup nq = false /\ C nq = None /\
      is_Some (Left nq) /\ is_Some (Right nq))).
Proof.
  eexists _, _, _. split; [eval_build|]. split; [simpl; lia|].
  split; [reflexivity|].
  eapply (nodes_are_leaves_or_internal Demo.main_list Demo.empty _ _ 4).
  - eval_build.
  - simpl. lia.
  - reflexivity.
Defined.

Lemma parent_and_child_links_agree_witness :
  exists m st',
    NewTree Demo.six_list Demo.empty = Some ((Some m, None), st') /\
    (forall q nq l,
       length (nodes Demo.empty) <= q -> nodes st' !! q = Some nq ->
       (Left nq = Some l \/ Right nq = Some l) ->
       exists ndl, length (nodes Demo.empty) <= l < q /\
                   nodes st' !! l = Some ndl /\ Parent ndl = Some q) /\
    (forall q nq n,
       length (nodes Demo.empty) <= q -> nodes st' !! q = Some nq ->
       Parent nq = Some n ->
       exists nn, q < n /\ nodes st' !! n = Some nn /\ leaf nn = false /\
                  (Left nn = Some q \/ Right nn = Some q)) /\
    (forall q nq,
       length (nodes Demo.empty) <= q -> nodes st' !! q = Some nq ->
       (Parent nq = None <-> Root m = Some q)).
Proof.
  eexists _, _. split; [eval_build|].
  apply (parent_and_child_links_agree Demo.six_list Demo.empty). eval_build.
Defined.

Lemma leaves_are_equally_deep_witness :
  exists m st',
    NewTree Demo.six_list Demo.empty = Some ((Some m, None), st') /\
    exists root d,
      Root m = Some root /\ 1 <= d /\
      2 ^ (d - 1) < length (Leafs m) <= 2 ^ d /\
      (forall p, p ∈ Leafs m -> reaches (nodes st') root p d) /\
      (forall q, length (nodes Demo.empty) <= q < length (nodes st') ->
         exists k, reaches (nodes st') root q k).
Proof.
  eexists _, _. split; [eval_build|].
  apply (leaves_are_equally_deep Demo.six_list Demo.empty). eval_build.
Defined.

Lemma path_length_is_logarithmic_witness :
  exists m st',
    NewTree Demo.main_list Demo.empty = Some ((Some m, None), st') /\
    exists merklePath index,
      GetMerklePath m (Demo.mkTestContent "Hey") (nodes st')
        = Some (merklePath, index, None) /\
      length index = length merklePath /\
      1 <= length merklePath /\
      2 ^ (length merklePath - 1) < length (Leafs m) <= 2 ^ length merklePath.
Proof.
  eexists _, _. split; [eval_build|].
  apply (path_length_is_logarithmic Demo.main_list Demo.empty _ _
           (Demo.mkTestContent "Hey") 2 (Demo.mkTestContent "Hey")).
  - eval_build.
  - reflexivity.
  - reflexivity.
  - repeat constructor.
Defined.

Lemma node_count_is_linear_witness :
  exists m st',
    NewTree Demo.six_list Demo.empty = Some ((Some m, None), st') /\
    exists k d,
      length (nodes st') = length (nodes Demo.empty) + length (Leafs m) + k /\
      length (Leafs m) - 1 <= k <= length (Leafs m) + d - 2 /\
      2 ^ (d - 1) < length (Leafs m) <= 2 ^ d.
Proof.
  eexists _, _. split; [eval_build|].
  apply (node_count_is_linear Demo.six_list Demo.empty). eval_build.
Defined.

Lemma merkle_path_shape_witness :
  exists m st' merklePath index,
    NewTree Demo.main_list Demo.empty = Some ((Some m, None), st') /\
    GetMerklePath m (Demo.mkTestContent "Hey") (nodes st')
      = Some (merklePath, index, None) /\
    length index = length merklePath /\
    Forall (fun d => d = 0%Z \/ d = 1%Z) index /\
    Forall (fun d => exists q nq, nodes st' !! q = Some nq /\ Hash nq = d)
           merklePath /\
    ((None : option error) <> None -> merklePath = [] /\ index = []).
Proof.
  eexists _, _, _, _. split; [eval_build|].
  assert (forall P Q : Prop, P -> (P -> Q) -> P /\ Q) as Hcut by tauto.
  apply Hcut.
  - eval_lhs.
  - intros Hget. exact (merkle_path_shape _ _ _ _ _ _ Hget).
Defined.




Lemma merkle_path_always_returns_witness :
  exists m st',
    NewTree Demo.main_list Demo.empty = Some ((Some m, None), st') /\
    exists merklePath index err,
      GetMerklePath m (Demo.mkTestContent "Nope") (nodes st')
        = Some (merklePath, index, err).
Proof.
  eexists _, _. split; [eval_build|].
  apply (merkle_path_always_returns Demo.main_list Demo.empty). eval_build.
Defined.


Lemma write_failure_aborts_build_witness :
  digests_ok [Raw.a; Raw.b] /\
  padHashes (map (fun c => fst (CalculateHash c)) [Raw.a; Raw.b])
    = [Raw.a; Raw.b] /\
  Write Raw.broken (Raw.a ++ Raw.b) = Some Raw.write_failed /\
  buildWithContent [Raw.a; Raw.b] 0 Raw.broken []
    = Some ((None, [], Some Raw.write_failed),
            [] ++ padNodes 0 (map (leafNode 0) [Raw.a; Raw.b])).
Proof.
  split; [repeat constructor|]. split; [reflexivity|]. split; [reflexivity|].
  apply (write_failure_aborts_build [Raw.a; Raw.b] 0 Raw.broken []
           Raw.a Raw.b [] Raw.write_failed).
  - repeat constructor.
  - reflexivity.
  - reflexivity.
Defined.

Lemma single_item_tree_witness :
  snd (CalculateHash (Demo.mkTestContent "Hey")) = None /\
  Equals (Demo.mkTestContent "Hey") (Demo.mkTestContent "Hey") = (true, None) /\
  exists m st',
    NewTree [Demo.mkTestContent "Hey"] Demo.empty = Some ((Some m, None), st') /\
    length (Leafs m) = 2 /\
    length (nodes st') = length (nodes Demo.empty) + 3 /\
    MerkleRoot m = MD5.Sum (fst (CalculateHash (Demo.mkTestContent "Hey")) ++
                            fst (CalculateHash (Demo.mkTestContent "Hey"))) /\
    GetMerklePath m (Demo.mkTestContent "Hey") (nodes st')
      = Some ([fst (CalculateHash (Demo.mkTestContent "Hey"))], [1%Z], None).
Proof.
  split; [reflexivity|]. split; [reflexivity|].
  apply (single_item_tree (Demo.mkTestContent "Hey") Demo.empty); reflexivity.
Defined.

Lemma short_level_never_yields_root_witness :
  length [0] < 2 /\
  (forall data, Write Raw.copy data = None) /\
  buildIntermediate 8 [0] 0 Raw.copy [leafNode 0 Raw.a] = None.
Proof.
  split; [simpl; lia|]. split; [reflexivity|].
  apply (proj2 (short_level_never_yields_root 8 [0] 0 Raw.copy
                  [leafNode 0 Raw.a] ltac:(simpl; lia))).
  reflexivity.
Defined.

Lemma test_content_lookup_decides_membership_witness :
  Demo.main_list <> [] /\
  exists m st',
    NewTree Demo.main_list Demo.empty = Some ((Some m, None), st') /\
    forall c,
      (c ∈ Demo.main_list ->
       exists merklePath index,
         GetMerklePath m c (nodes st') = Some (merklePath, index, None) /\
         merklePath <> [] /\
         foldPath MD5.Sum (MD5.Sum (bytes_of_string (Demo.x c))) merklePath index
           = MerkleRoot m) /\
      (c ∉ Demo.main_list ->
       GetMerklePath m c (nodes st') = Some ([], [], None)).
Proof.
  split; [discriminate|].
  apply (test_content_lookup_decides_membership Demo.main_list Demo.empty).
  discriminate.
Defined.
